(** * proc_exporter: process classification and per-group aggregation

    A shallow embedding of the collector package of catawiki/proc_exporter:
    the matcher primitives, the conjunction matcher, the name template, the
    ordered rule set ([FirstMatcher]), the configuration reader
    ([getMatchNamer]) and the aggregation pass ([readProcGroups]).

    Go values are modelled as follows.
    - [string] is Go's string (a sequence of bytes).
    - [map[string]string] is [gmap string string]; a map result that may be
      [nil] is an [option] of it ([None] is [nil]).
    - [map[string]struct{}] is [gset string].
    - [int] and [uint64] are [Z] with the 64-bit wrap-around written out.
    - [float64] is the primitive binary64 type [float].
    - an interface value is the closure of its single method; a [nil]
      interface is [None]. *)

From Stdlib Require Import ZArith Ascii String List Floats.
From stdpp Require Import base option list strings gmap.

Local Open Scope string_scope.
Local Open Scope list_scope.

(** ** Strings: the parts of [strings] and [path/filepath] the package uses *)

Module Strings.

(** [strings.Join(elems, sep)]. *)
Fixpoint Join (elems : list string) (sep : string) : string :=
  match elems with
  | [] => ""
  | [e] => e
  | e :: rest => e +:+ sep +:+ Join rest sep
  end.

Definition isSlash (c : ascii) : bool := Ascii.eqb c "/"%char.

(** [strings.Contains(s, "/")]. *)
Fixpoint ContainsSlash (s : string) : bool :=
  match s with
  | EmptyString => false
  | String c rest => isSlash c || ContainsSlash rest
  end.

Fixpoint dropWhile {A} (p : A → bool) (l : list A) : list A :=
  match l with
  | [] => []
  | x :: rest => if p x then dropWhile p rest else l
  end.

Fixpoint takeWhile {A} (p : A → bool) (l : list A) : list A :=
  match l with
  | [] => []
  | x :: rest => if p x then x :: takeWhile p rest else []
  end.

(** [filepath.Base(path)] on a Unix system: the last element of the path,
    trailing slashes removed first; ["."] for the empty path and ["/"] for
    a path of slashes only. The scan runs over the reversed byte sequence,
    as the library's loops run from the end of the string. *)
Definition Base (path : string) : string :=
  match path with
  | EmptyString => "."
  | _ =>
      let stripped := dropWhile isSlash (reverse (list_ascii_of_string path)) in
      let last := takeWhile (λ c, negb (isSlash c)) stripped in
      match last with
      | [] => "/"
      | _ => string_of_list_ascii (reverse last)
      end
  end.

End Strings.

(** ** The regular-expression library, as the package sees it

    The package uses two methods of a compiled [*regexp.Regexp]:
    [FindStringSubmatch], whose result is [nil] ([None]) when the expression
    finds no match and otherwise holds the text of the leftmost match
    followed by the text of each parenthesized subexpression, and
    [SubexpNames], whose entry 0 names the whole match and entry [i] the
    [i]-th subexpression (the empty string for an unnamed one). *)

Record Regexp := {
  FindStringSubmatch : string → option (list string);
  SubexpNames : list string
}.

(** What the library guarantees of every compiled expression: a match slice
    is as long as the name slice, and the whole match bears the empty name. *)
Record regexp_wf (r : Regexp) : Prop := {
  wf_length : ∀ s caps, FindStringSubmatch r s = Some caps →
                length caps = length (SubexpNames r);
  wf_whole : head (SubexpNames r) = Some ""
}.

(** A model of the library on a subset of its syntax: literals, [.], the
    classes [\w] [\d] [\s], [^] and [$], greedy [*] [+] [?], alternation,
    and groups, plain, [(?:...)] or named [(?P<name>...)]. Matching is
    leftmost-first, by backtracking, as the library documents it. *)
Module RE.

Inductive regex :=
| Empty
| Lit (c : ascii)
| Class (p : ascii → bool)
| BeginText
| EndText
| Cat (r1 r2 : regex)
| Alt (r1 r2 : regex)
| Star (r : regex)
| Plus (r : regex)
| Capture (idx : nat) (r : regex).

Definition spans := gmap nat (nat * nat).

Section Run.
Variable inp : list ascii.

Definition cont := nat → spans → option (nat * spans).

Definition step1 (p : ascii → bool) (pos : nat) (caps : spans) (k : cont) :=
  match inp !! pos with
  | Some c => if p c then k (S pos) caps else None
  | None => None
  end.

Fixpoint run (r : regex) (pos : nat) (caps : spans) (k : cont)
  : option (nat * spans) :=
  let many (r' : regex) :=
    fix loop (fuel : nat) (pos : nat) (caps : spans) : option (nat * spans) :=
      match fuel with
      | O => k pos caps
      | S f =>
          match run r' pos caps
                  (λ pos' caps', if (pos <? pos')%nat then loop f pos' caps' else None) with
          | Some res => Some res
          | None => k pos caps
          end
      end in
  match r with
  | Empty => k pos caps
  | Lit c => step1 (Ascii.eqb c) pos caps k
  | Class p => step1 p pos caps k
  | BeginText => if (pos =? 0)%nat then k pos caps else None
  | EndText => if (pos =? length inp)%nat then k pos caps else None
  | Cat r1 r2 => run r1 pos caps (λ pos' caps', run r2 pos' caps' k)
  | Alt r1 r2 =>
      match run r1 pos caps k with
      | Some res => Some res
      | None => run r2 pos caps k
      end
  | Star r' => many r' (length inp) pos caps
  | Plus r' => run r' pos caps (λ pos' caps', many r' (length inp) pos' caps')
  | Capture idx r' =>
      run r' pos caps (λ pos' caps', k pos' (<[idx := (pos, pos')]> caps'))
  end.

Definition slice (a b : nat) : string :=
  string_of_list_ascii (take (b - a) (drop a inp)).

(** The leftmost start position at which the expression matches. *)
Fixpoint search (r : regex) (starts : list nat) : option (nat * nat * spans) :=
  match starts with
  | [] => None
  | a :: rest =>
      match run r a ∅ (λ b caps, Some (b, caps)) with
      | Some (b, caps) => Some (a, b, caps)
      | None => search r rest
      end
  end.

Definition submatches (r : regex) (ngroups : nat) : option (list string) :=
  match search r (seq 0 (S (length inp))) with
  | Some (a, b, caps) =>
      Some (slice a b ::
            map (λ i, match caps !! i with
                      | Some (x, y) => slice x y
                      | None => ""
                      end) (seq 1 ngroups))
  | None => None
  end.
End Run.

(** A compiled expression: the syntax tree and the names of its groups,
    in the order of their opening parentheses. *)
Definition compiled (r : regex) (names : list string) : Regexp :=
  {| FindStringSubmatch s := submatches (list_ascii_of_string s) r (length names);
     SubexpNames := "" :: names |}.

(** *** Reading a pattern

    [Compile] reads the subset of the syntax described above and refuses
    ([None]) everything else, both what the library refuses (an unbalanced
    parenthesis, a repetition with nothing to repeat or of a repetition)
    and what it accepts but the model leaves out (bracket classes, counted
    and lazy repetitions, flags). *)

Definition between (lo hi c : ascii) : bool :=
  (nat_of_ascii lo <=? nat_of_ascii c)%nat && (nat_of_ascii c <=? nat_of_ascii hi)%nat.

Definition isDigit (c : ascii) : bool := between "0" "9" c.

Definition isWord (c : ascii) : bool :=
  isDigit c || between "a" "z" c || between "A" "Z" c || Ascii.eqb c "_".

Definition isSpace (c : ascii) : bool :=
  Ascii.eqb c " " || between (ascii_of_nat 9) (ascii_of_nat 13) c.

Definition isPunct (c : ascii) : bool :=
  between "!" "~" c && negb (isWord c).

Definition isRepeat (c : ascii) : bool :=
  Ascii.eqb c "*" || Ascii.eqb c "+" || Ascii.eqb c "?".

Definition backslash : ascii := ascii_of_nat 92.

(** The atom a backslash escape stands for. *)
Definition escape (c : ascii) : option regex :=
  if Ascii.eqb c "w" then Some (Class isWord)
  else if Ascii.eqb c "W" then Some (Class (λ x, negb (isWord x)))
  else if Ascii.eqb c "d" then Some (Class isDigit)
  else if Ascii.eqb c "D" then Some (Class (λ x, negb (isDigit x)))
  else if Ascii.eqb c "s" then Some (Class isSpace)
  else if Ascii.eqb c "S" then Some (Class (λ x, negb (isSpace x)))
  else if Ascii.eqb c "n" then Some (Lit (ascii_of_nat 10))
  else if Ascii.eqb c "t" then Some (Lit (ascii_of_nat 9))
  else if isPunct c then Some (Lit c)
  else None.

Definition parsed : Type := regex * list ascii * list string.

(** After a group's body: the closing parenthesis. *)
Definition closeGroup (wrap : regex → regex) (body : option parsed) : option parsed :=
  match body with
  | Some (r, c :: rest, names) =>
      if Ascii.eqb c ")" then Some (wrap r, rest, names) else None
  | _ => None
  end.

(** After an atom: at most one repetition operator. *)
Definition repeat (atom : option parsed) : option parsed :=
  match atom with
  | Some (r, c :: rest, names) =>
      if isRepeat c then
        match rest with
        | c' :: _ => if isRepeat c' then None else
            Some (if Ascii.eqb c "*" then Star r
                  else if Ascii.eqb c "+" then Plus r
                  else Alt r Empty, rest, names)
        | [] =>
            Some (if Ascii.eqb c "*" then Star r
                  else if Ascii.eqb c "+" then Plus r
                  else Alt r Empty, rest, names)
        end
      else atom
  | _ => atom
  end.

Fixpoint parseAlt (fuel : nat) (s : list ascii) (names : list string) : option parsed :=
  match fuel with
  | O => None
  | S f =>
      match parseCat f s names with
      | Some (r1, c :: s1, names1) =>
          if Ascii.eqb c "|" then
            match parseAlt f s1 names1 with
            | Some (r2, s2, names2) => Some (Alt r1 r2, s2, names2)
            | None => None
            end
          else Some (r1, c :: s1, names1)
      | other => other
      end
  end
with parseCat (fuel : nat) (s : list ascii) (names : list string) : option parsed :=
  match fuel with
  | O => None
  | S f =>
      match s with
      | [] => Some (Empty, s, names)
      | c :: _ =>
          if Ascii.eqb c "|" || Ascii.eqb c ")" then Some (Empty, s, names)
          else
            match repeat (parseAtom f s names) with
            | Some (r1, s1, names1) =>
                match parseCat f s1 names1 with
                | Some (r2, s2, names2) => Some (Cat r1 r2, s2, names2)
                | None => None
                end
            | None => None
            end
      end
  end
with parseAtom (fuel : nat) (s : list ascii) (names : list string) : option parsed :=
  match fuel with
  | O => None
  | S f =>
      match s with
      | [] => None
      | c :: rest =>
          if Ascii.eqb c "(" then
            match rest with
            | q :: rest1 =>
                if Ascii.eqb q "?" then
                  match rest1 with
                  | k :: rest2 =>
                      if Ascii.eqb k ":" then closeGroup id (parseAlt f rest2 names)
                      else if Ascii.eqb k "P" then
                        match rest2 with
                        | lt :: rest3 =>
                            let name := Strings.takeWhile isWord rest3 in
                            match name, Strings.dropWhile isWord rest3 with
                            | _ :: _, gt :: body =>
                                if Ascii.eqb lt "<" && Ascii.eqb gt ">" then
                                  closeGroup (Capture (S (length names)))
                                    (parseAlt f body (names ++ [string_of_list_ascii name]))
                                else None
                            | _, _ => None
                            end
                        | [] => None
                        end
                      else None
                  | [] => None
                  end
                else closeGroup (Capture (S (length names)))
                       (parseAlt f rest (names ++ [""]))
            | [] => None
            end
          else if Ascii.eqb c backslash then
            match rest with
            | e :: rest1 =>
                match escape e with
                | Some r => Some (r, rest1, names)
                | None => None
                end
            | [] => None
            end
          else if Ascii.eqb c "." then
            Some (Class (λ x, negb (Ascii.eqb x (ascii_of_nat 10))), rest, names)
          else if Ascii.eqb c "^" then Some (BeginText, rest, names)
          else if Ascii.eqb c "$" then Some (EndText, rest, names)
          else if isRepeat c || Ascii.eqb c "[" || Ascii.eqb c "{" then None
          else Some (Lit c, rest, names)
      end
  end.

(** [regexp.Compile(expr)] on the subset. *)
Definition Compile (expr : string) : option Regexp :=
  let s := list_ascii_of_string expr in
  match parseAlt (4 * length s + 4) s [] with
  | Some (r, [], names) => Some (compiled r names)
  | _ => None
  end.

End RE.

(** ** The template library, as the package uses it

    A model of [text/template] on the templates the configuration documents:
    literal text and field actions [{{.A}}] and [{{.A.B}}]. The data a
    template is executed against is seen through its field paths: a path
    evaluates to a printed value, or execution stops there with an error
    (the text written so far stays in the buffer). *)
Module Template.

Inductive node :=
| Text (s : string)
| Field (path : list string).

Definition t := list node.

Definition isIdent (c : ascii) : bool := RE.isWord c.

(** The path of a field action: [.A.B] is [["A"; "B"]]. *)
Fixpoint fieldPath (fuel : nat) (s : list ascii) : option (list string) :=
  match fuel, s with
  | _, [] => Some []
  | S f, c :: rest =>
      if Ascii.eqb c "." then
        match Strings.takeWhile isIdent rest with
        | [] => None
        | id =>
            match fieldPath f (Strings.dropWhile isIdent rest) with
            | Some ids => Some (string_of_list_ascii id :: ids)
            | None => None
            end
        end
      else None
  | O, _ :: _ => None
  end.

Definition trim (s : list ascii) : list ascii :=
  reverse (Strings.dropWhile RE.isSpace (reverse (Strings.dropWhile RE.isSpace s))).

Definition action (body : list ascii) : option node :=
  let b := trim body in
  match fieldPath (length b) b with
  | Some (id :: ids) => Some (Field (id :: ids))
  | _ => None
  end.

Definition textNode (acc : list ascii) : list node :=
  match acc with
  | [] => []
  | _ => [Text (string_of_list_ascii (reverse acc))]
  end.

(** The scanner: [inAction] tells whether the text read into [acc] (in
    reverse) lies between the delimiters. *)
Fixpoint scan (s : list ascii) (inAction : bool) (acc : list ascii) : option t :=
  match s with
  | [] => if inAction then None else Some (textNode acc)
  | c :: rest =>
      match rest with
      | c' :: rest' =>
          if negb inAction && Ascii.eqb c "{" && Ascii.eqb c' "{" then
            match scan rest' true [] with
            | Some nodes => Some (textNode acc ++ nodes)
            | None => None
            end
          else if inAction && Ascii.eqb c "}" && Ascii.eqb c' "}" then
            match action (reverse acc), scan rest' false [] with
            | Some n, Some nodes => Some (n :: nodes)
            | _, _ => None
            end
          else scan rest inAction (c :: acc)
      | [] => scan rest inAction (c :: acc)
      end
  end.

(** [template.New(name).Parse(text)]. *)
Definition Parse (text : string) : option t :=
  scan (list_ascii_of_string text) false [].

(** [t.Execute(&buf, data)]: the contents of the buffer afterwards. *)
Fixpoint Execute (tmpl : t) (data : list string → option string) : string :=
  match tmpl with
  | [] => ""
  | Text s :: rest => s +:+ Execute rest data
  | Field path :: rest =>
      match data path with
      | Some v => v +:+ Execute rest data
      | None => ""
      end
  end.

End Template.

(** ** Package collector: classification (the rule engine) *)

Record NameAndCmdline := {
  Name : string;
  Cmdline : list string
}.

(** The interfaces. [Match] returns whether the process matched and the
    captures; [MatchAndName] whether it matched and the resulting name. *)
Class Matcher (T : Type) :=
  Match : T → NameAndCmdline → bool * option (gmap string string).

Class MatchNamer (T : Type) :=
  MatchAndName : T → NameAndCmdline → bool * string.

(** A value of interface type: the method of the value it holds. *)
Definition dynMatcher : Type := NameAndCmdline → bool * option (gmap string string).
Definition dynMatchNamer : Type := NameAndCmdline → bool * string.

Definition FirstMatcher : Type := list dynMatchNamer.

Record Config := { MatchNamers : FirstMatcher }.

Record commMatcher := { comms : gset string }.

Record exeMatcher := { exes : gmap string string }.

Record cmdlineMatcher := { regexes : list Regexp }.

Definition andMatcher : Type := list dynMatcher.

Record templateNamer := { template : Template.t }.

(** The struct embeds an [andMatcher] and a [templateNamer]. *)
Record matchNamer := {
  matchers : andMatcher;
  namer : templateNamer
}.

Record templateParams := {
  Comm : string;
  ExeBase : string;
  ExeFull : string;
  Matches : option (gmap string string)
}.

(** The fields of [templateParams] as a template reaches them. A key that
    [Matches] lacks prints as the library's no-value marker; any other path
    stops the execution. *)
Definition templateParams_field (p : templateParams) (path : list string) : option string :=
  match path with
  | [f] =>
      if String.eqb f "Comm" then Some (Comm p)
      else if String.eqb f "ExeBase" then Some (ExeBase p)
      else if String.eqb f "ExeFull" then Some (ExeFull p)
      else None
  | [f; k] =>
      if String.eqb f "Matches" then
        Some (default "<no value>" (Matches p ≫= λ m, m !! k))
      else None
  | _ => None
  end.

(** [func (f FirstMatcher) MatchAndName]. *)
Fixpoint FirstMatcher_MatchAndName (f : FirstMatcher) (nacl : NameAndCmdline) : bool * string :=
  match f with
  | [] => (false, "")
  | m :: rest =>
      let '(matched, name) := m nacl in
      if matched then (true, name) else FirstMatcher_MatchAndName rest nacl
  end.

#[export] Instance FirstMatcher_MatchNamer : MatchNamer FirstMatcher :=
  FirstMatcher_MatchAndName.

(** [func (m *commMatcher) Match]. *)
#[export] Instance commMatcher_Match : Matcher commMatcher := λ m nacl,
  (bool_decide (Name nacl ∈ comms m), None).

(** [func (m *exeMatcher) Match]. *)
#[export] Instance exeMatcher_Match : Matcher exeMatcher := λ m nacl,
  match Cmdline nacl with
  | [] => (false, None)
  | arg0 :: _ =>
      let thisbase := Strings.Base arg0 in
      match exes m !! thisbase with
      | None => (false, None)
      | Some fqpath =>
          if String.eqb fqpath "" then (true, None)
          else (String.eqb fqpath arg0, None)
      end
  end.

(** The inner loop of [cmdlineMatcher.Match]: [matches[name] =
    regexCaptures[i]] for every index of [subexpNames]; the caller has
    checked that the two slices have one length. *)
Definition insertCaptures (subexpNames regexCaptures : list string)
    (matches : gmap string string) : gmap string string :=
  foldl (λ acc '(name, capture), <[name := capture]> acc) matches
        (zip subexpNames regexCaptures).

(** The outer loop of [cmdlineMatcher.Match] over the remaining regexes. *)
Fixpoint cmdlineMatcher_loop (rs : list Regexp) (nacl : NameAndCmdline)
    (matches : gmap string string) : bool * option (gmap string string) :=
  match rs with
  | [] => (true, Some matches)
  | regex :: rest =>
      match FindStringSubmatch regex (Strings.Join (Cmdline nacl) " ") with
      | None => (false, None)
      | Some regexCaptures =>
          let subexpNames := SubexpNames regex in
          if negb (length subexpNames =? length regexCaptures)%nat then (false, None)
          else cmdlineMatcher_loop rest nacl
                 (insertCaptures subexpNames regexCaptures matches)
      end
  end.

(** [func (m *cmdlineMatcher) Match]. *)
#[export] Instance cmdlineMatcher_Match : Matcher cmdlineMatcher := λ m nacl,
  cmdlineMatcher_loop (regexes m) nacl ∅.

(** [for k, v := range matches { allMatches[k] = v }]. *)
Definition mergeInto (matches : gmap string string) (allMatches : gmap string string)
    : gmap string string :=
  map_fold (λ k v acc, <[k := v]> acc) allMatches matches.

(** The loop of [andMatcher.Match] over the remaining matchers. *)
Fixpoint andMatcher_loop (ms : list dynMatcher) (nacl : NameAndCmdline)
    (allMatches : gmap string string) : bool * option (gmap string string) :=
  match ms with
  | [] => (true, Some allMatches)
  | matcher :: rest =>
      let '(ok, matches) := matcher nacl in
      if negb ok then (false, None)
      else andMatcher_loop rest nacl
             match matches with
             | Some m => mergeInto m allMatches
             | None => allMatches
             end
  end.

(** [func (m andMatcher) Match]. *)
#[export] Instance andMatcher_Match : Matcher andMatcher := λ m nacl,
  andMatcher_loop m nacl ∅.

(** [func (m *matchNamer) MatchAndName]; the error of [Execute] is dropped
    there and the buffer returned as it stands. *)
#[export] Instance matchNamer_MatchAndName : MatchNamer matchNamer := λ m nacl,
  let '(ok, matches) := Match (matchers m) nacl in
  if negb ok then (false, "")
  else
    let '(exebase, exefull) :=
      match Cmdline nacl with
      | [] => (Name nacl, Name nacl)
      | arg0 :: _ => (Strings.Base arg0, arg0)
      end in
    (true, Template.Execute (template (namer m))
             (templateParams_field
                {| Comm := Name nacl; ExeBase := exebase;
                   ExeFull := exefull; Matches := matches |})).

(** ** Package collector: reading the configuration *)

(** A value as [yaml.Unmarshal] hands it over in an [interface{}]. *)
#[local] Set Warnings "-register-all".
Inductive yaml :=
| YString (s : string)
| YInt (n : Z)
| YBool (b : bool)
| YNull
| YList (items : list yaml)
| YMap (entries : list (yaml * yaml)).

(** The errors of the reader, one constructor per [fmt.Errorf] (and one
    each for the file and the YAML library). *)
Inductive configError :=
| ErrReadFile
| ErrYaml
| ErrNoProcessNames
| ErrNotAList
| ErrEntry (i : nat) (e : configError)
| ErrNotAMap
| ErrNonStringKey (k : yaml)
| ErrNonStringValue (key : string)
| ErrNonStringArray (key : string)
| ErrNonStringInList (i : nat) (key : string)
| ErrBadRegex (c : string)
| ErrNoMatchers
| ErrBadTemplate (nametmpl : string).

Inductive result (A : Type) :=
| Ok (a : A)
| Err (e : configError).
Arguments Ok {A} a.
Arguments Err {A} e.

#[export] Instance result_bind : MBind result := λ A B f r,
  match r with
  | Ok a => f a
  | Err e => Err e
  end.

(** [for i, si := range vals]: the strings of a list, or the first element
    that is not one. *)
Fixpoint stringsOf (key : string) (i : nat) (vals : list yaml) : result (list string) :=
  match vals with
  | [] => Ok []
  | YString s :: rest => strs ← stringsOf key (S i) rest; Ok (s :: strs)
  | _ :: _ => Err (ErrNonStringInList i key)
  end.

(** [for k, v := range nm]: the name template and the string lists of one
    entry. The entries of the map are visited in the order of the list. *)
Fixpoint readEntry (nm : list (yaml * yaml)) (smap : gmap string (list string))
    (nametmpl : string) : result (gmap string (list string) * string) :=
  match nm with
  | [] => Ok (smap, nametmpl)
  | (YString key, v) :: rest =>
      if String.eqb key "name" then
        match v with
        | YString value => readEntry rest smap value
        | _ => Err (ErrNonStringValue key)
        end
      else
        match v with
        | YList vals =>
            strs ← stringsOf key 0 vals;
            readEntry rest (<[key := strs]> smap) nametmpl
        | _ => Err (ErrNonStringArray key)
        end
  | (k, _) :: _ => Err (ErrNonStringKey k)
  end.

(** [for _, c := range comm { comms[c] = struct{}{} }]. *)
Definition commSet (comm : list string) : gset string :=
  foldl (λ comms c, {[c]} ∪ comms) ∅ comm.

(** [for _, e := range exe]: a full path is indexed by its base name and
    remembered, a bare name is indexed with no path required. *)
Definition exeMap (exe : list string) : gmap string string :=
  foldl (λ exes e,
           if Strings.ContainsSlash e then <[Strings.Base e := e]> exes
           else <[e := ""]> exes) ∅ exe.

Section Reader.

(** [regexp.Compile], [yaml.Unmarshal] into a [map[string]interface{}] and
    [ioutil.ReadFile]: [None] is an error. *)
Variable Compile : string → option Regexp.
Variable Unmarshal : string → option (gmap string yaml).
Variable ReadFile : string → option string.

(** [for _, c := range cmdline]: the compiled expressions, or the first
    pattern the library refuses. *)
Fixpoint compileAll (cmdline : list string) : result (list Regexp) :=
  match cmdline with
  | [] => Ok []
  | c :: rest =>
      match Compile c with
      | Some r => rs ← compileAll rest; Ok (r :: rs)
      | None => Err (ErrBadRegex c)
      end
  end.

Definition getMatchNamer (yamlmn : yaml) : result matchNamer :=
  match yamlmn with
  | YMap nm =>
      '(smap, nametmpl) ← readEntry nm ∅ "";
      let matchers : andMatcher := [] in
      let matchers :=
        match smap !! "comm" with
        | Some comm => (matchers ++ [Match {| comms := commSet comm |}])
        | None => matchers
        end in
      let matchers :=
        match smap !! "exe" with
        | Some exe => (matchers ++ [Match {| exes := exeMap exe |}])
        | None => matchers
        end in
      matchers ←
        match smap !! "cmdline" with
        | Some cmdline =>
            rs ← compileAll cmdline;
            Ok (matchers ++ [Match {| regexes := rs |}])
        | None => Ok matchers
        end;
      if (length matchers =? 0)%nat then Err ErrNoMatchers
      else
        let nametmpl := if String.eqb nametmpl "" then "{{.ExeBase}}" else nametmpl in
        match Template.Parse nametmpl with
        | None => Err (ErrBadTemplate nametmpl)
        | Some tmpl => Ok {| matchers := matchers; namer := {| template := tmpl |} |}
        end
  | _ => Err ErrNotAMap
  end.

(** [for i, procname := range procnames] of [GetConfig]. *)
Fixpoint readProcnames (i : nat) (procnames : list yaml) (acc : FirstMatcher)
    : result FirstMatcher :=
  match procnames with
  | [] => Ok acc
  | procname :: rest =>
      match getMatchNamer procname with
      | Ok mn => readProcnames (S i) rest (acc ++ [MatchAndName mn])
      | Err e => Err (ErrEntry i e)
      end
  end.

Definition GetConfig (content : string) : result Config :=
  match Unmarshal content with
  | None => Err ErrYaml
  | Some yamldata =>
      match yamldata !! "process_names" with
      | None => Err ErrNoProcessNames
      | Some (YList procnames) =>
          namers ← readProcnames 0 procnames [];
          Ok {| MatchNamers := namers |}
      | Some _ => Err ErrNotAList
      end
  end.

Definition ReadConfig (cfgpath : string) : result Config :=
  match ReadFile cfgpath with
  | None => Err ErrReadFile
  | Some content => GetConfig content
  end.

(** [main], up to the construction of the collector: the [MatchNamer] it
    passes to [NewProcCollector]. The variable starts as the nil interface
    and is assigned only under a config path; a failing [ReadConfig] ends
    the program ([log.Fatalf]). *)
Definition main_matchnamer (configPath : string) : result (option dynMatchNamer) :=
  let matchnamer : option dynMatchNamer := None in
  if negb (String.eqb configPath "") then
    cfg ← ReadConfig configPath;
    Ok (Some (MatchAndName (MatchNamers cfg)))
  else Ok matchnamer.

End Reader.

(** ** Machine numbers *)

(** The conversions [uint64(x)] and the wrap-around of [int] (64 bits). *)
Definition uint64 (z : Z) : Z := z mod 2 ^ 64.
Definition int (z : Z) : Z := (z + 2 ^ 63) mod 2 ^ 64 - 2 ^ 63.

(** [float64(x)] of an unsigned 64-bit integer: the nearest binary64. *)
Definition float64 (z : Z) : float :=
  SF2Prim (SpecFloat.binary_normalize prec emax z 0 false).

(** ** The process table and the account database

    The external collaborators of one pass: what each call returns. A call
    that returns [(value, error)] whose value the package drops on an error
    is an [option]. *)
Module procfs.

Record Proc := { PID : Z }.

(** The fields of [ProcStat] the collector reads, and the results of its
    methods [VirtualMemory()] and [ResidentMemory()]. *)
Record ProcStat := {
  Comm : string;
  UTime : Z;
  STime : Z;
  NumThreads : Z;
  Starttime : Z;
  VirtualMemory : Z;
  ResidentMemory : Z
}.

Record Stat := { BootTime : Z }.

End procfs.

Record Env := {
  (** [procfs.AllProcs()] *)
  AllProcs : option (list procfs.Proc);
  (** [procfs.NewStat()]: the value, and whether the error is set *)
  NewStat : procfs.Stat * bool;
  (** [p.NewStat()] *)
  Proc_NewStat : procfs.Proc → option procfs.ProcStat;
  (** [p.CmdLine()] *)
  Proc_CmdLine : procfs.Proc → option (list string);
  (** [os.Stat] of the process's stat file: [None] is an error; the file
      information holds the owner's uid when its [Sys()] is a
      [*syscall.Stat_t] *)
  os_Stat : Z → option (option Z);
  (** [user.LookupId] of a uid: the account's [Username] *)
  user_LookupId : Z → option string
}.

(** ** Package collector: the aggregation pass *)

Definition userHZ : float := 100.

Record groupKey := {
  key_account : string;
  groupname : string
}.

#[export] Instance groupKey_eq_dec : EqDecision groupKey.
Proof. solve_decision. Defined.

#[export] Instance groupKey_countable : Countable groupKey :=
  inj_countable' (λ k, (key_account k, groupname k))
                 (λ p, {| key_account := p.1; groupname := p.2 |})
                 (λ k, match k with Build_groupKey _ _ => eq_refl end).

Record procGroup := {
  name : string;
  account : string;
  cpuSystem : float;
  cpuUser : float;
  memVirt : Z;
  memRss : Z;
  numProcs : Z;
  numThreads : Z;
  oldestStartTime : float
}.

(** The state of a collector that a pass reads and writes: the rule set it
    was built with ([None] is the nil interface) and [errors.scrape]. The
    metric descriptors play no part in a pass. *)
Record procCollector := {
  procfsPath : string;
  matchnamer : option dynMatchNamer;
  errors_scrape : Z
}.

Definition NewProcCollector (procfsPath : string) (matchnamer : option dynMatchNamer)
    : procCollector :=
  {| procfsPath := procfsPath; matchnamer := matchnamer; errors_scrape := 0 |}.

(** A method of the collector either returns, with the collector as it
    left it, or panics. *)
Inductive outcome (A : Type) :=
| Returns (a : A) (c : procCollector)
| Panics.
Arguments Returns {A} a c.
Arguments Panics {A}.

Definition Run (A : Type) : Type := procCollector → outcome A.

#[export] Instance Run_ret : MRet Run := λ A a c, Returns a c.

#[export] Instance Run_bind : MBind Run := λ A B f m c,
  match m c with
  | Returns a c' => f a c'
  | Panics => Panics
  end.

(** [c.errors.scrape += 1] *)
Definition countError : Run unit := λ c,
  Returns () {| procfsPath := procfsPath c; matchnamer := matchnamer c;
                errors_scrape := int (errors_scrape c + 1) |}.

(** [c.matchnamer.MatchAndName(nacl)]: a method call on a nil interface
    panics. *)
Definition callMatchAndName (nacl : NameAndCmdline) : Run (bool * string) := λ c,
  match matchnamer c with
  | Some mn => Returns (mn nacl) c
  | None => Panics
  end.

(** [getProcAccount]: the account and whether the returned error is set.
    Where [Sys()] is no [*syscall.Stat_t] the function returns the error of
    the [os.Stat] call, which is nil at that point. *)
Definition getProcAccount (env : Env) (pid : Z) : string * bool :=
  match os_Stat env pid with
  | None => ("", true)
  | Some None => ("", false)
  | Some (Some uid) =>
      match user_LookupId env uid with
      | None => ("", true)
      | Some username => (username, false)
      end
  end.

(** The values computed under [// read metrics] for one process. *)
Module metrics.
Record t := {
  cpuSystem : float;
  cpuUser : float;
  memVirt : Z;
  memRss : Z;
  numThreads : Z;
  startTime : float
}.
End metrics.

Definition readMetrics (bootTime : Z) (stat : procfs.ProcStat) : metrics.t :=
  {| metrics.cpuSystem := float64 (procfs.STime stat) / userHZ;
     metrics.cpuUser := float64 (procfs.UTime stat) / userHZ;
     metrics.memVirt := uint64 (procfs.VirtualMemory stat);
     metrics.memRss := uint64 (procfs.ResidentMemory stat);
     metrics.numThreads := uint64 (procfs.NumThreads stat);
     metrics.startTime := float64 bootTime + float64 (procfs.Starttime stat) / userHZ |}.

(** [&procGroup{name: gname, account: account}] *)
Definition newGroup (gname account : string) : procGroup :=
  {| name := gname; account := account; cpuSystem := 0; cpuUser := 0;
     memVirt := 0; memRss := 0; numProcs := 0; numThreads := 0;
     oldestStartTime := 0 |}.

(** The lines under [// update group]. *)
Definition updateGroup (g : procGroup) (m : metrics.t) : procGroup :=
  {| name := name g;
     account := account g;
     cpuSystem := cpuSystem g + metrics.cpuSystem m;
     cpuUser := cpuUser g + metrics.cpuUser m;
     memVirt := uint64 (memVirt g + metrics.memVirt m);
     memRss := uint64 (memRss g + metrics.memRss m);
     numProcs := uint64 (numProcs g + 1);
     numThreads := uint64 (numThreads g + metrics.numThreads m);
     oldestStartTime :=
       if (oldestStartTime g =? 0) || (metrics.startTime m <? oldestStartTime g)
       then metrics.startTime m else oldestStartTime g |}%float.

(** The lines from [// read metrics] on, for a process that was classified
    in the group [gname]: the account, the metrics, the group of the key
    (made on first sight) and its update. *)
Definition aggregate (env : Env) (bootTime : Z) (p : procfs.Proc) (stat : procfs.ProcStat)
    (gname : string) (procGroups : gmap groupKey procGroup)
    : Run (gmap groupKey procGroup) :=
  let '(account, err) := getProcAccount env (procfs.PID p) in
  (if err then countError else mret ());;
  let m := readMetrics bootTime stat in
  let gkey := {| key_account := account; groupname := gname |} in
  let g := default (newGroup gname account) (procGroups !! gkey) in
  mret (<[gkey := updateGroup g m]> procGroups).

(** The body of [for _, p := range procs]; [continue] returns the groups
    as they are. *)
Definition readProc (env : Env) (bootTime : Z) (procGroups : gmap groupKey procGroup)
    (p : procfs.Proc) : Run (gmap groupKey procGroup) :=
  match Proc_NewStat env p with
  | None => countError;; mret procGroups
  | Some stat =>
      match Proc_CmdLine env p with
      | None => countError;; mret procGroups
      | Some cmdline =>
          let comm := procfs.Comm stat in
          let nacl := {| Name := comm; Cmdline := cmdline |} in
          '(wanted, gname) ← callMatchAndName nacl;
          if negb wanted then mret procGroups
          else aggregate env bootTime p stat gname procGroups
      end
  end.

Fixpoint readProcs (env : Env) (bootTime : Z) (procs : list procfs.Proc)
    (procGroups : gmap groupKey procGroup) : Run (gmap groupKey procGroup) :=
  match procs with
  | [] => mret procGroups
  | p :: rest =>
      procGroups' ← readProc env bootTime procGroups p;
      readProcs env bootTime rest procGroups'
  end.

(** [func (c *procCollector) readProcGroups]: the groups ([None] is the nil
    map) and whether the returned error is set. *)
Definition readProcGroups (env : Env) : Run (option (gmap groupKey procGroup) * bool) :=
  match AllProcs env with
  | None => countError;; mret (None, true)
  | Some procs =>
      let '(fstat, err) := NewStat env in
      (if err then countError else mret ());;
      let bootTime := uint64 (procfs.BootTime fstat) in
      procGroups ← readProcs env bootTime procs ∅;
      mret (Some procGroups, false)
  end.

(** ** Package collector: the metrics of a scrape

    The descriptors that [NewProcCollector] builds, and the samples that
    [Collect] sends. A sample is written as the arguments that [Collect]
    hands to [prometheus.MustNewConstMetric]; the library either builds the
    metric from them or panics. *)

Record Desc := {
  fqName : string;
  help : string;
  variableLabels : list string
}.

Inductive ValueType := CounterValue | GaugeValue.

Record constMetric := {
  desc : Desc;
  valueType : ValueType;
  value : float;
  labelValues : list string
}.

Module descs.

Definition ns : string := "proc_".

Definition scrapeErrors : Desc :=
  {| fqName := ns +:+ "scrape_errors";
     help := "Error collecting proc metrics";
     variableLabels := [] |}.

Definition cpu : Desc :=
  {| fqName := ns +:+ "cpu_seconds_total";
     help := "Total user CPU time spent in seconds.";
     variableLabels := ["account"; "groupname"; "mode"] |}.

Definition memory : Desc :=
  {| fqName := ns +:+ "memory_bytes";
     help := "Used amount of memory in bytes.";
     variableLabels := ["account"; "groupname"; "memtype"] |}.

Definition numProcs : Desc :=
  {| fqName := ns +:+ "num_procs";
     help := "Number of processes.";
     variableLabels := ["account"; "groupname"] |}.

Definition numThreads : Desc :=
  {| fqName := ns +:+ "num_threads";
     help := "Number of threads.";
     variableLabels := ["account"; "groupname"] |}.

Definition oldestStartTime : Desc :=
  {| fqName := ns +:+ "oldest_start_time_seconds";
     help := "Oldest process start time in seconds.";
     variableLabels := ["account"; "groupname"] |}.

End descs.

(** [func (c *procCollector) Describe]: the descriptors sent, in order. *)
Definition Describe : list Desc :=
  [descs.scrapeErrors; descs.cpu; descs.memory; descs.numProcs; descs.numThreads;
   descs.oldestStartTime].

(** The body of [for _, g := range procGroups] in [Collect]: the seven
    samples of a group. *)
Definition groupSamples (g : procGroup) : list constMetric :=
  [ {| desc := descs.cpu; valueType := CounterValue; value := cpuSystem g;
       labelValues := [account g; name g; "system"] |};
    {| desc := descs.cpu; valueType := CounterValue; value := cpuUser g;
       labelValues := [account g; name g; "user"] |};
    {| desc := descs.memory; valueType := GaugeValue; value := float64 (memVirt g);
       labelValues := [account g; name g; "virtual"] |};
    {| desc := descs.memory; valueType := GaugeValue; value := float64 (memRss g);
       labelValues := [account g; name g; "resident"] |};
    {| desc := descs.numProcs; valueType := GaugeValue; value := float64 (numProcs g);
       labelValues := [account g; name g] |};
    {| desc := descs.numThreads; valueType := GaugeValue; value := float64 (numThreads g);
       labelValues := [account g; name g] |};
    {| desc := descs.oldestStartTime; valueType := GaugeValue; value := oldestStartTime g;
       labelValues := [account g; name g] |} ].

(** The last sample of [Collect]: the scrape errors of the collector. *)
Definition errorsSample (c : procCollector) : constMetric :=
  {| desc := descs.scrapeErrors; valueType := CounterValue;
     value := float64 (errors_scrape c); labelValues := [] |}.

(** The samples of a scrape, from what the pass returned: those of each
    group (a nil map has none; the groups come in the order in which the
    map is ranged over, here that of [map_to_list]), then the errors. *)
Definition scrapeSamples (procGroups : option (gmap groupKey procGroup))
    (c : procCollector) : list constMetric :=
  concat (map (λ kg, groupSamples kg.2)
              (match procGroups with
               | Some groups => map_to_list groups
               | None => []
               end))
  ++ [errorsSample c].

Section Collect.

(** [prometheus.MustNewConstMetric]: the metric, or [None] for a panic. *)
Variable Metric : Type.
Variable MustNewConstMetric : constMetric → option Metric.

(** [ch <- prometheus.MustNewConstMetric(...)] for each sample in turn: the
    metrics sent, or [None] when a call panics. *)
Fixpoint sendAll (samples : list constMetric) : option (list Metric) :=
  match samples with
  | [] => Some []
  | s :: rest =>
      match MustNewConstMetric s with
      | Some m =>
          match sendAll rest with
          | Some ms => Some (m :: ms)
          | None => None
          end
      | None => None
      end
  end.

(** [func (c *procCollector) Collect]: the metrics sent on the channel. The
    error of [readProcGroups] is dropped. *)
Definition Collect (env : Env) : Run (list Metric) := λ c,
  match readProcGroups env c with
  | Returns (procGroups, _) c' =>
      match sendAll (scrapeSamples procGroups c') with
      | Some ms => Returns ms c'
      | None => Panics
      end
  | Panics => Panics
  end.

End Collect.

(** ** Sample configurations and process tables

    Rule sets read by [getMatchNamer] (with the pattern reader [RE.Compile])
    and small process tables, for running the definitions. *)
Module Sample.

Definition rule (entries : list (string * yaml)) : yaml :=
  YMap (map (λ kv, (YString kv.1, kv.2)) entries).

Definition strs (l : list string) : yaml := YList (map YString l).

(** The rule of an entry, as [GetConfig] puts it in the rule set; an entry
    the reader refuses stands as a rule that matches nothing. *)
Definition namerOf (entry : yaml) : dynMatchNamer :=
  match getMatchNamer RE.Compile entry with
  | Ok mn => MatchAndName mn
  | Err _ => λ _, (false, "")
  end.

Definition rules (entries : list yaml) : FirstMatcher := map namerOf entries.

(** A compiled pattern; a pattern the reader refuses stands as a regex
    that finds nothing. *)
Definition noRegexp : Regexp :=
  {| FindStringSubmatch _ := None; SubexpNames := [""] |}.

Definition pattern (expr : string) : Regexp := default noRegexp (RE.Compile expr).

(** [cmdline: ["^worker", "--role=(?P<role>\w+)"]] *)
Definition workerRegexes : list Regexp :=
  [pattern "^worker"; pattern "--role=(?P<role>\w+)"].

Definition workerMatcher : cmdlineMatcher := {| regexes := workerRegexes |}.

Definition ingest : NameAndCmdline :=
  {| Name := "worker"; Cmdline := ["worker"; "--role=ingest"] |}.

Definition plainWorker : NameAndCmdline :=
  {| Name := "worker"; Cmdline := ["worker"] |}.

Definition usrBinFoo : NameAndCmdline :=
  {| Name := "foo"; Cmdline := ["/usr/bin/foo"] |}.

Definition optFoo : NameAndCmdline :=
  {| Name := "foo"; Cmdline := ["/opt/foo"; "-v"] |}.

Definition server : NameAndCmdline :=
  {| Name := "server"; Cmdline := ["/opt/app/bin/server"; "-x"] |}.

Definition kthread : NameAndCmdline := {| Name := "kthreadd"; Cmdline := [] |}.

(** Two rules that both match [usrBinFoo], and one that does not. *)
Definition ruleBar : yaml := rule [("comm", strs ["bar"])].
Definition ruleA : yaml := rule [("name", YString "A"); ("exe", strs ["foo"])].
Definition ruleB : yaml := rule [("name", YString "B"); ("comm", strs ["foo"])].

(** A table of four processes, all running [/usr/bin/foo]. Process 2 has
    gone by the time its stat file is read; process 3 is owned by a uid
    with no account; process 1 started at tick 0, the others at tick 500. *)
Definition stat (comm : string) (starttime : Z) : procfs.ProcStat :=
  {| procfs.Comm := comm; procfs.UTime := 250; procfs.STime := 50;
     procfs.NumThreads := 2; procfs.Starttime := starttime;
     procfs.VirtualMemory := 4096; procfs.ResidentMemory := 1024 |}.

Definition proc (pid : Z) : procfs.Proc := {| procfs.PID := pid |}.

Definition table (bootTime : Z) (bootErr : bool) : Env :=
  {| AllProcs := Some [proc 1; proc 2; proc 3; proc 4];
     NewStat := ({| procfs.BootTime := bootTime |}, bootErr);
     Proc_NewStat p :=
       if (procfs.PID p =? 2)%Z then None
       else Some (stat "foo" (if (procfs.PID p =? 1)%Z then 0 else 500));
     Proc_CmdLine p := Some ["/usr/bin/foo"];
     os_Stat pid := Some (Some (if (pid =? 3)%Z then 4242 else 1000)%Z);
     user_LookupId uid := if (uid =? 1000)%Z then Some "alice" else None |}.

Definition collector (entries : list yaml) : procCollector :=
  NewProcCollector "/proc" (Some (MatchAndName (rules entries))).

(** What a pass that returned groups left behind: the error counter, and
    the process count and oldest start time of the group of a key. *)
Definition summary (k : groupKey)
    (o : outcome (option (gmap groupKey procGroup) * bool))
    : option (Z * option Z * option float) :=
  match o with
  | Returns (Some groups, false) c =>
      Some (errors_scrape c, numProcs <$> groups !! k, oldestStartTime <$> groups !! k)
  | _ => None
  end.

End Sample.

(** ** Notions used in the statements *)

(** [m] does not match the process. *)
Definition rejects (nacl : NameAndCmdline) (m : dynMatchNamer) : Prop :=
  (m nacl).1 = false.

(** The collector after [c.errors.scrape += 1], and after [k] of them. *)
Definition countedOnce (c : procCollector) : procCollector :=
  {| procfsPath := procfsPath c; matchnamer := matchnamer c;
     errors_scrape := int (errors_scrape c + 1) |}.

Definition withErrors (k : nat) (c : procCollector) : procCollector :=
  Nat.iter k countedOnce c.

(** An outcome with [k] more scrape errors counted. *)
Definition after {A} (k : nat) (o : outcome A) : outcome A :=
  match o with
  | Returns a c => Returns a (withErrors k c)
  | Panics => Panics
  end.

(** Both reads of the process succeed. *)
Definition readable (env : Env) (p : procfs.Proc) : bool :=
  match Proc_NewStat env p, Proc_CmdLine env p with
  | Some _, Some _ => true
  | _, _ => false
  end.

(** The key an entry of the [exe] list is indexed under, and the path
    stored with it. *)
Definition exeKey (e : string) : string :=
  if Strings.ContainsSlash e then Strings.Base e else e.

Definition exePath (e : string) : string :=
  if Strings.ContainsSlash e then e else "".

(** [m] matches the process. *)
Definition accepts (nacl : NameAndCmdline) (m : dynMatcher) : Prop :=
  (m nacl).1 = true.

(** The captures of [m] on the process, a nil map counting as empty. *)
Definition capturesOf (nacl : NameAndCmdline) (m : dynMatcher) : gmap string string :=
  default ∅ (m nacl).2.

(** The merge of the captures of [ms], later matchers first. *)
Definition mergedCaptures (nacl : NameAndCmdline) (ms : list dynMatcher)
    (all : gmap string string) : gmap string string :=
  foldl (λ all m, capturesOf nacl m ∪ all) all ms.

(** The groups a pass holds are made by [newGroup] for their key and
    updated with the metrics of processes of the table only. *)
Definition foldedFrom (env : Env) (bootTime : Z) (procs : list procfs.Proc)
    (groups : gmap groupKey procGroup) : Prop :=
  ∀ k g, groups !! k = Some g →
    ∃ m ms,
      g = foldl updateGroup (newGroup (groupname k) (key_account k)) (m :: ms)
      ∧ Forall (λ x, ∃ p stat, p ∈ procs ∧ Proc_NewStat env p = Some stat
                               ∧ x = readMetrics bootTime stat) (m :: ms).

(** The last entry of the [exe] list indexed under the key [k]. *)
Definition lastWithKey (k : string) (exe : list string) : option string :=
  last (List.filter (λ e, bool_decide (exeKey e = k)) exe).

(** The entry has the string [key] among its keys. *)
Definition hasKey (nm : list (yaml * yaml)) (key : string) : bool :=
  existsb (λ kv, match kv.1 with
                 | YString k => String.eqb k key
                 | _ => false
                 end) nm.

(** The sum of an integer metric over the processes folded into a group. *)
Definition total (f : metrics.t → Z) (ms : list metrics.t) : Z :=
  foldr (λ m acc, f m + acc)%Z 0%Z ms.

(** What tells one sample of a scrape from another: the name of its
    descriptor and its label values. *)
Definition sampleId (s : constMetric) : string * list string :=
  (fqName (desc s), labelValues s).

(** A metrics library that checks the label count and nothing else, a
    metric being its sample. *)
Definition countChecked (s : constMetric) : option constMetric :=
  if (length (labelValues s) =? length (variableLabels (desc s)))%nat then Some s
  else None.

(** The sample table with a process list that cannot be read. *)
Definition tableUnlisted : Env :=
  {| AllProcs := None;
     NewStat := NewStat (Sample.table 0 false);
     Proc_NewStat := Proc_NewStat (Sample.table 0 false);
     Proc_CmdLine := Proc_CmdLine (Sample.table 0 false);
     os_Stat := os_Stat (Sample.table 0 false);
     user_LookupId := user_LookupId (Sample.table 0 false) |}.

(** The scrape errors that one process of the table costs a pass with the
    rule set [mn]: one when it cannot be read, one when it is classified
    and [getProcAccount] returns an error, none otherwise. *)
Definition errorsOf (env : Env) (mn : dynMatchNamer) (p : procfs.Proc) : nat :=
  match Proc_NewStat env p, Proc_CmdLine env p with
  | Some stat, Some cmdline =>
      if (mn {| Name := procfs.Comm stat; Cmdline := cmdline |}).1
      then Nat.b2n (getProcAccount env (procfs.PID p)).2
      else 0%nat
  | _, _ => 1%nat
  end.

Definition errorsOfAll (env : Env) (mn : dynMatchNamer) (procs : list procfs.Proc) : nat :=
  foldr (λ p n, (errorsOf env mn p + n)%nat) 0%nat procs.

(** * Properties *)

Local Open Scope Z_scope.
#[local] Set Warnings "-clear-no-such-hyp".

Ltac run_simpl :=
  repeat (unfold mbind, mret, Run_bind, Run_ret, countError, callMatchAndName in *; cbn in *).

(** ** Running the model *)

Example Base_of_paths :
  Strings.Base "/opt/app/bin/server" = "server"
  ∧ Strings.Base "/usr/bin/foo//" = "foo"
  ∧ Strings.Base "foo" = "foo"
  ∧ Strings.Base "///" = "/"
  ∧ Strings.Base "" = ".".
Proof. by vm_compute. Qed.

Example Join_with_space :
  Strings.Join ["worker"; "--role=ingest"] " " = "worker --role=ingest".
Proof. by vm_compute. Qed.

(** The sample entries and patterns are ones the readers accept. *)
Example samples_are_read :
  forallb (λ e, match getMatchNamer RE.Compile e with Ok _ => true | Err _ => false end)
          [Sample.ruleBar; Sample.ruleA; Sample.ruleB] = true
  ∧ forallb (λ p, match RE.Compile p with Some _ => true | None => false end)
            ["^worker"; "--role=(?P<role>\w+)"] = true.
Proof. by vm_compute. Qed.

(** A rule whose name template uses the command name and a capture. *)
Example template_with_capture :
  Sample.namerOf
    (Sample.rule [("name", YString "{{.Comm}}-{{.Matches.role}}");
                  ("cmdline", Sample.strs ["--role=(?P<role>\w+)"])])
    {| Name := "proc"; Cmdline := ["worker"; "--role=ingest"] |}
  = (true, "proc-ingest").
Proof. by vm_compute. Qed.

(** An entry with no matcher, a bad pattern and a bad template are
    refused. *)
Example refused_entries :
  getMatchNamer RE.Compile (Sample.rule [("name", YString "x")]) = Err ErrNoMatchers
  ∧ getMatchNamer RE.Compile (Sample.rule [("cmdline", Sample.strs ["(a"])])
    = Err (ErrBadRegex "(a")
  ∧ getMatchNamer RE.Compile
      (Sample.rule [("name", YString "{{.Comm"); ("comm", Sample.strs ["a"])])
    = Err (ErrBadTemplate "{{.Comm").
Proof. by vm_compute. Qed.

(** ** The ordered rule set *)

Lemma FirstMatcher_skip (pre rest : FirstMatcher) nacl :
  Forall (rejects nacl) pre →
  FirstMatcher_MatchAndName (pre ++ rest) nacl = FirstMatcher_MatchAndName rest nacl.
Proof.
  induction 1 as [|m pre Hm _ IH]; [done|].
  cbn. unfold rejects in Hm. destruct (m nacl) as [matched n]; cbn in Hm.
  by rewrite Hm.
Qed.

Lemma FirstMatcher_none (f : FirstMatcher) nacl :
  Forall (rejects nacl) f → FirstMatcher_MatchAndName f nacl = (false, "").
Proof.
  intros H. rewrite <- (app_nil_r f). by rewrite FirstMatcher_skip.
Qed.

(** A readable process that the rule set does not classify leaves the pass
    as it found it. *)
Lemma readProc_unmatched env bootTime groups p stat cmdline mn c :
  Proc_NewStat env p = Some stat →
  Proc_CmdLine env p = Some cmdline →
  matchnamer c = Some mn →
  (mn {| Name := procfs.Comm stat; Cmdline := cmdline |}).1 = false →
  readProc env bootTime groups p c = Returns groups c.
Proof.
  intros Hs Hc Hmn Hno. unfold readProc. rewrite Hs, Hc. run_simpl.
  rewrite Hmn. destruct (mn _) as [wanted gname]. cbn in Hno. by subst.
Qed.

(** C1. Classification walks the rules in configuration order and reports
    the name of the first rule that matches: when every rule before [A]
    rejects the process and [A] matches it with name [n], the rule set
    answers [(true, n)] whatever comes after [A] (so of two matching rules
    the earlier gives the name). When every rule rejects the process the
    answer is no-match, and the aggregation pass leaves the groups and the
    error counter untouched for such a process. *)
Theorem first_match_wins (f : FirstMatcher) (nacl : NameAndCmdline) :
  (∀ pre A post n,
      f = pre ++ A :: post → Forall (rejects nacl) pre → A nacl = (true, n) →
      MatchAndName f nacl = (true, n))
  ∧ (Forall (rejects nacl) f →
       MatchAndName f nacl = (false, "")
       ∧ ∀ env bootTime groups p stat c,
           Proc_NewStat env p = Some stat →
           Proc_CmdLine env p = Some (Cmdline nacl) →
           procfs.Comm stat = Name nacl →
           matchnamer c = Some (MatchAndName f) →
           readProc env bootTime groups p c = Returns groups c).
Proof.
  split.
  - intros pre A post n -> Hpre HA.
    unfold MatchAndName, FirstMatcher_MatchNamer.
    rewrite FirstMatcher_skip by done. cbn. by rewrite HA.
  - intros Hall. split; [by apply FirstMatcher_none|].
    intros env bootTime groups p stat c Hs Hc Hcomm Hmn.
    eapply readProc_unmatched; [done..|].
    rewrite Hcomm. destruct nacl as [nm cl]; cbn.
    unfold MatchAndName, FirstMatcher_MatchNamer. by rewrite FirstMatcher_none.
Qed.

(** The rules [ruleBar], [ruleA], [ruleB] on [/usr/bin/foo]: the first
    rejects it, the other two match, and the name is [ruleA]'s. *)
Lemma first_match_wins_witness :
  MatchAndName (Sample.rules [Sample.ruleBar; Sample.ruleA; Sample.ruleB]) Sample.usrBinFoo
  = (true, "A")
  ∧ Sample.namerOf Sample.ruleB Sample.usrBinFoo = (true, "B").
Proof.
  split; [|by vm_compute].
  apply (proj1 (first_match_wins _ Sample.usrBinFoo)
               [Sample.namerOf Sample.ruleBar] (Sample.namerOf Sample.ruleA)
               [Sample.namerOf Sample.ruleB] "A").
  - reflexivity.
  - constructor; [by vm_compute|constructor].
  - by vm_compute.
Defined.

(** ** The command-line matcher *)

Section CmdlineMatcher.

Implicit Types (names caps : list string) (m : gmap string string) (rs : list Regexp).

Lemma insertCaptures_notin names caps m k :
  k ∉ names → insertCaptures names caps m !! k = m !! k.
Proof.
  revert caps m. induction names as [|n names IH]; intros [|c caps] m Hk; try done.
  unfold insertCaptures in *. cbn.
  rewrite IH by set_solver. apply lookup_insert_ne. set_solver.
Qed.

Lemma insertCaptures_last names caps m (i : nat) k v :
  names !! i = Some k → caps !! i = Some v →
  (∀ j : nat, (i < j)%nat → names !! j ≠ Some k) →
  insertCaptures names caps m !! k = Some v.
Proof.
  revert caps m i.
  induction names as [|n names IH]; intros [|c caps] m [|i] Hn Hc Hlast; try done.
  - cbn in Hn, Hc. simplify_eq. unfold insertCaptures; cbn.
    fold (insertCaptures names caps (<[k:=v]> m)).
    rewrite insertCaptures_notin; [apply lookup_insert_eq|].
    intros [j Hj]%list_elem_of_lookup. apply (Hlast (S j)); [lia|done].
  - unfold insertCaptures; cbn.
    apply (IH caps _ i); [done..|].
    intros j Hj. apply (Hlast (S j)). lia.
Qed.

Lemma insertCaptures_keys names caps m k :
  length names = length caps →
  is_Some (insertCaptures names caps m !! k) ↔ k ∈ names ∨ is_Some (m !! k).
Proof.
  revert caps m. induction names as [|n names IH]; intros [|c caps] m Hlen; try done.
  - cbn. set_solver.
  - unfold insertCaptures in *; cbn. rewrite IH by (cbn in Hlen; lia).
    rewrite lookup_insert. case_decide; subst; [|set_solver].
    split; [set_solver|]. intros _. right. by eexists.
Qed.

(** What a successful run of the loop went through: every regex found a
    match as long as its name slice. *)
Lemma cmdlineMatcher_loop_success rs nacl m0 m :
  cmdlineMatcher_loop rs nacl m0 = (true, Some m) →
  Forall (λ r, ∃ caps, FindStringSubmatch r (Strings.Join (Cmdline nacl) " ") = Some caps
                       ∧ length (SubexpNames r) = length caps) rs.
Proof.
  revert m0. induction rs as [|r rs IH]; intros m0 H; [constructor|].
  cbn in H. destruct (FindStringSubmatch r _) as [caps|] eqn:Hfind; [|done].
  destruct (Nat.eqb_spec (length (SubexpNames r)) (length caps)) as [Hlen|]; [|done].
  cbn in H. constructor; eauto.
Qed.

Lemma cmdlineMatcher_loop_keys rs nacl m0 m k :
  cmdlineMatcher_loop rs nacl m0 = (true, Some m) →
  is_Some (m !! k) ↔ (∃ r, r ∈ rs ∧ k ∈ SubexpNames r) ∨ is_Some (m0 !! k).
Proof.
  revert m0. induction rs as [|r rs IH]; intros m0 H; cbn in H.
  - simplify_eq. set_solver.
  - destruct (FindStringSubmatch r _) as [caps|]; [|done].
    destruct (Nat.eqb_spec (length (SubexpNames r)) (length caps)) as [Hlen|]; [|done].
    cbn in H. rewrite (IH _ H), insertCaptures_keys by done. set_solver.
Qed.

Lemma cmdlineMatcher_loop_notin rs nacl m0 m k :
  cmdlineMatcher_loop rs nacl m0 = (true, Some m) →
  Forall (λ r, k ∉ SubexpNames r) rs →
  m !! k = m0 !! k.
Proof.
  revert m0. induction rs as [|r rs IH]; intros m0 H Hk; cbn in H.
  - by simplify_eq.
  - destruct (FindStringSubmatch r _) as [caps|]; [|done].
    destruct (negb _); [done|]. inversion_clear Hk.
    rewrite (IH _ H) by done. by apply insertCaptures_notin.
Qed.

Lemma cmdlineMatcher_loop_last pre r post nacl m0 m caps (i : nat) k v :
  cmdlineMatcher_loop (pre ++ r :: post) nacl m0 = (true, Some m) →
  FindStringSubmatch r (Strings.Join (Cmdline nacl) " ") = Some caps →
  SubexpNames r !! i = Some k → caps !! i = Some v →
  (∀ j : nat, (i < j)%nat → SubexpNames r !! j ≠ Some k) →
  Forall (λ r', k ∉ SubexpNames r') post →
  m !! k = Some v.
Proof.
  revert m0. induction pre as [|r0 pre IH]; intros m0 H Hfind Hn Hc Hlast Hpost; cbn in H.
  - rewrite Hfind in H. destruct (negb _); [done|].
    rewrite (cmdlineMatcher_loop_notin _ _ _ _ _ H Hpost).
    by eapply insertCaptures_last.
  - destruct (FindStringSubmatch r0 _); [|done]. destruct (negb _); [done|]. eauto.
Qed.

Lemma cmdlineMatcher_loop_fail rs nacl m0 :
  (cmdlineMatcher_loop rs nacl m0).1 = false →
  cmdlineMatcher_loop rs nacl m0 = (false, None).
Proof.
  revert m0. induction rs as [|r rs IH]; intros m0; cbn; [done|].
  destruct (FindStringSubmatch r _); [|done]. destruct (negb _); [done|]. apply IH.
Qed.

Lemma cmdlineMatcher_loop_iff rs nacl m0 :
  Forall regexp_wf rs →
  (cmdlineMatcher_loop rs nacl m0).1 = true
  ↔ Forall (λ r, is_Some (FindStringSubmatch r (Strings.Join (Cmdline nacl) " "))) rs.
Proof.
  intros Hwf. revert m0. induction Hwf as [|r rs Hr _ IH]; intros m0; cbn.
  - split; [constructor|done].
  - rewrite Forall_cons. destruct (FindStringSubmatch r _) as [caps|] eqn:Hfind; cbn.
    + rewrite (wf_length _ Hr _ _ Hfind), Nat.eqb_refl. cbn. rewrite IH. naive_solver.
    + split; [done|]. by intros [[? ?] _].
Qed.

End CmdlineMatcher.

(** The model of the library keeps the library's guarantees. *)
Lemma compiled_wf r names : regexp_wf (RE.compiled r names).
Proof.
  split; [|done]. intros s caps. cbn. unfold RE.submatches.
  destruct (RE.search _ r _) as [[[a b] sp]|]; [|done].
  intros [= <-]. cbn. by rewrite length_map, length_seq.
Qed.

Lemma Compile_wf expr r : RE.Compile expr = Some r → regexp_wf r.
Proof.
  unfold RE.Compile. destruct (RE.parseAlt _ _ _) as [[[t [|? ?]] names]|]; [|done..].
  intros [= <-]. apply compiled_wf.
Qed.

Lemma compileAll_wf Compile cmdline rs :
  (∀ expr r, Compile expr = Some r → regexp_wf r) →
  compileAll Compile cmdline = Ok rs → Forall regexp_wf rs.
Proof.
  intros HC. revert rs. induction cmdline as [|c cmdline IH]; intros rs; cbn.
  - intros [= <-]. constructor.
  - destruct (Compile c) as [r|] eqn:Hc; [|done].
    destruct (compileAll Compile cmdline) as [rs'|]; [|done].
    intros [= <-]. constructor; eauto.
Qed.

Lemma pattern_wf expr : regexp_wf (Sample.pattern expr).
Proof.
  unfold Sample.pattern. destruct (RE.Compile expr) as [r|] eqn:Hr; cbn.
  - by eapply Compile_wf.
  - by split.
Qed.

Lemma workerRegexes_wf : Forall regexp_wf Sample.workerRegexes.
Proof. repeat constructor; apply pattern_wf. Qed.

Lemma worker_ingest_captures :
  Match Sample.workerMatcher Sample.ingest
  = (true, Some {[ "role" := "ingest"; "" := "--role=ingest" ]}).
Proof. by vm_compute. Qed.

(** C2, as the code has it. On a successful match the keys of the
    CaptureSet are exactly the subexpression names of the configured
    regexes: the name of every named group and, besides, the empty string,
    the name the library gives the whole match and the unnamed groups (so
    it is a key whenever the list is not empty). Each key holds the value
    of the last subexpression of that name in the last regex that has one:
    a later regex's same-named group overwrites an earlier one. For the
    cmdline [["worker"; "--role=ingest"]] and the patterns [^worker] and
    [--role=(?P<role>\w+)] the result holds [role = ingest] and, under the
    empty key, the second pattern's whole match. *)
Theorem cmdline_captures :
  (∀ (rs : list Regexp) (nacl : NameAndCmdline) (m : gmap string string),
     Match {| regexes := rs |} nacl = (true, Some m) →
     (∀ k, is_Some (m !! k) ↔ ∃ r, r ∈ rs ∧ k ∈ SubexpNames r)
     ∧ (∀ pre r post caps (i : nat) k v,
          rs = pre ++ r :: post →
          FindStringSubmatch r (Strings.Join (Cmdline nacl) " ") = Some caps →
          SubexpNames r !! i = Some k → caps !! i = Some v →
          (∀ j : nat, (i < j)%nat → SubexpNames r !! j ≠ Some k) →
          Forall (λ r', k ∉ SubexpNames r') post →
          m !! k = Some v)
     ∧ (Forall regexp_wf rs → rs ≠ [] → is_Some (m !! "")))
  ∧ Match Sample.workerMatcher Sample.ingest
    = (true, Some {[ "role" := "ingest"; "" := "--role=ingest" ]}).
Proof.
  split; [|apply worker_ingest_captures].
  intros rs nacl m H. unfold Match, cmdlineMatcher_Match in H. cbn in H.
  split; [|split].
  - intros k. rewrite (cmdlineMatcher_loop_keys _ _ _ _ k H), lookup_empty.
    split; [intros [?|[? ?]]; done|by left].
  - intros pre r post caps i k v -> Hfind Hn Hc Hlast Hpost.
    by eapply cmdlineMatcher_loop_last.
  - intros Hwf Hne. apply (cmdlineMatcher_loop_keys _ _ _ _ "" H). left.
    destruct rs as [|r rs]; [done|]. exists r. split; [set_solver|].
    inversion_clear Hwf as [|?? [_ Hw] _].
    destruct (SubexpNames r) as [|n ns]; [done|]. cbn in Hw. simplify_eq. set_solver.
Qed.

(** The claim's example through the general statement: the key [role] of
    the second pattern, index 1 of its name slice, and the empty key. *)
Lemma cmdline_captures_witness :
  ∃ m, Match Sample.workerMatcher Sample.ingest = (true, Some m)
       ∧ m !! "role" = Some "ingest" ∧ is_Some (m !! "").
Proof.
  eexists. split; [apply worker_ingest_captures|].
  destruct (proj1 cmdline_captures Sample.workerRegexes Sample.ingest _
              worker_ingest_captures) as (_ & Hlast & Hwhole).
  split.
  - apply (Hlast [Sample.pattern "^worker"] (Sample.pattern "--role=(?P<role>\w+)") []
             ["--role=ingest"; "ingest"] 1%nat "role" "ingest").
    + reflexivity.
    + by vm_compute.
    + by vm_compute.
    + reflexivity.
    + intros j Hj.
      assert (SubexpNames (Sample.pattern "--role=(?P<role>\w+)") = [""; "role"]) as ->
        by (by vm_compute).
      destruct j as [|[|[|j]]]; (lia || done).
    + constructor.
  - apply Hwhole; [apply workerRegexes_wf|done].
Defined.

(** C2 as it was stated fails: in the claim's own example a key that is
    no named group's name, the empty string, is in the result. *)
Lemma cmdline_captures_only_named_fails :
  ¬ (∀ (rs : list Regexp) (nacl : NameAndCmdline) (m : gmap string string),
       Forall regexp_wf rs →
       Match {| regexes := rs |} nacl = (true, Some m) →
       ∀ k, is_Some (m !! k) → k ≠ "" ∧ ∃ r, r ∈ rs ∧ k ∈ SubexpNames r).
Proof.
  intros Hclaim.
  destruct (Hclaim Sample.workerRegexes Sample.ingest
              {[ "role" := "ingest"; "" := "--role=ingest" ]}
              workerRegexes_wf worker_ingest_captures "") as [Hne _]; [|done].
  by eexists.
Qed.

(** C4. A command-line matcher succeeds exactly when every regex of its
    list finds a match in the cmdline joined with single spaces; when one
    does not, the whole matcher answers no-match with no CaptureSet at all
    (the nil map), whatever the earlier regexes captured. The patterns
    [^worker] and [--role=(?P<role>\w+)] against the cmdline [["worker"]]
    fail entirely. *)
Theorem cmdline_all_or_nothing :
  (∀ (rs : list Regexp) (nacl : NameAndCmdline),
     Forall regexp_wf rs →
     ((Match {| regexes := rs |} nacl).1 = true
      ↔ Forall (λ r, is_Some (FindStringSubmatch r (Strings.Join (Cmdline nacl) " "))) rs)
     ∧ ((Match {| regexes := rs |} nacl).1 = false →
        Match {| regexes := rs |} nacl = (false, None)))
  ∧ Match Sample.workerMatcher Sample.plainWorker = (false, None).
Proof.
  split; [|by vm_compute].
  intros rs nacl Hwf. unfold Match, cmdlineMatcher_Match. cbn. split.
  - by apply cmdlineMatcher_loop_iff.
  - apply cmdlineMatcher_loop_fail.
Qed.

(** The second pattern finds nothing in ["worker"], so the matcher fails
    and returns the nil map. *)
Lemma cmdline_all_or_nothing_witness :
  ¬ Forall (λ r, is_Some (FindStringSubmatch r "worker")) Sample.workerRegexes
  ∧ Match Sample.workerMatcher Sample.plainWorker = (false, None).
Proof.
  destruct (proj1 cmdline_all_or_nothing Sample.workerRegexes Sample.plainWorker
              workerRegexes_wf) as [Hiff Hnil].
  assert ((Match Sample.workerMatcher Sample.plainWorker).1 = false) as Hfalse
    by (by vm_compute).
  split; [|by apply Hnil].
  intros Hall. apply Hiff in Hall.
  change {| regexes := Sample.workerRegexes |} with Sample.workerMatcher in Hall.
  by rewrite Hfalse in Hall.
Defined.

(** ** The executable matcher *)

Lemma exeMap_snoc (exe : list string) (e : string) :
  exeMap (exe ++ [e]) = <[exeKey e := exePath e]> (exeMap exe).
Proof.
  unfold exeMap, exeKey, exePath. rewrite foldl_app. cbn.
  by destruct (Strings.ContainsSlash e).
Qed.

(** The index keeps, for a key, the last entry of the list that has it. *)
Lemma exeMap_retained (pre post : list string) (e : string) :
  Forall (λ e', exeKey e' ≠ exeKey e) post →
  exeMap (pre ++ e :: post) !! exeKey e = Some (exePath e).
Proof.
  induction post as [|e' post IH] using rev_ind; intros Hpost.
  - rewrite exeMap_snoc. apply lookup_insert_eq.
  - apply Forall_app in Hpost as [Hpost He']. inversion_clear He' as [|?? He _].
    rewrite app_comm_cons, app_assoc, exeMap_snoc, lookup_insert_ne by done.
    by apply IH.
Qed.

Lemma ContainsSlash_nonempty (e : string) : Strings.ContainsSlash e = true → e ≠ "".
Proof. by destruct e. Qed.

Lemma String_eqb_true (a b : string) : String.eqb a b = true ↔ a = b.
Proof. apply String.eqb_eq. Qed.

(** C3, as the code has it. Matching fails whenever the cmdline is empty.
    The entries of the [exe] list are indexed by base name, a later entry
    replacing an earlier one of the same base name; for an entry [e] that
    no later entry of the list shares its base name with (in particular
    for the only entry of a list): when [e] is a full path, a process
    whose first cmdline token has the base name of [e] matches exactly
    when that token is [e] itself; when [e] is a bare base name, every
    process whose first cmdline token has that base name matches, whatever
    the directory. *)
Theorem exe_entry_semantics (pre post : list string) (e : string) (nacl : NameAndCmdline) :
  Forall (λ e', exeKey e' ≠ exeKey e) post →
  (Cmdline nacl = [] → Match {| exes := exeMap (pre ++ e :: post) |} nacl = (false, None))
  ∧ (Strings.ContainsSlash e = true →
     ∀ arg0 rest, Cmdline nacl = arg0 :: rest →
       Strings.Base arg0 = Strings.Base e →
       ((Match {| exes := exeMap (pre ++ e :: post) |} nacl).1 = true ↔ arg0 = e))
  ∧ (Strings.ContainsSlash e = false →
     ∀ arg0 rest, Cmdline nacl = arg0 :: rest →
       Strings.Base arg0 = e →
       (Match {| exes := exeMap (pre ++ e :: post) |} nacl).1 = true).
Proof.
  intros Hpost. pose proof (exeMap_retained pre post e Hpost) as Hlook.
  unfold Match, exeMatcher_Match; cbn. split; [|split].
  - by intros ->.
  - intros Hslash arg0 rest -> Hbase.
    unfold exeKey, exePath in Hlook. rewrite Hslash in Hlook.
    rewrite Hbase, Hlook.
    destruct (String.eqb e "") eqn:He.
    + apply String_eqb_true in He. by apply ContainsSlash_nonempty in Hslash.
    + cbn. rewrite String_eqb_true. naive_solver.
  - intros Hslash arg0 rest -> Hbase.
    unfold exeKey, exePath in Hlook. rewrite Hslash in Hlook.
    by rewrite Hbase, Hlook.
Qed.

(** [exe: ["/usr/bin/foo"]] matches [/usr/bin/foo] and not [/opt/foo];
    [exe: ["foo"]] matches [/opt/foo]. *)
Lemma exe_entry_semantics_witness :
  (Match {| exes := exeMap ["/usr/bin/foo"] |} Sample.usrBinFoo).1 = true
  ∧ (Match {| exes := exeMap ["/usr/bin/foo"] |} Sample.optFoo).1 ≠ true
  ∧ (Match {| exes := exeMap ["foo"] |} Sample.optFoo).1 = true
  ∧ Match {| exes := exeMap ["foo"] |} Sample.kthread = (false, None).
Proof.
  pose proof (exe_entry_semantics [] [] "/usr/bin/foo" Sample.usrBinFoo (Forall_nil_2 _))
    as (_ & Hfull & _).
  pose proof (exe_entry_semantics [] [] "/usr/bin/foo" Sample.optFoo (Forall_nil_2 _))
    as (_ & Hother & _).
  pose proof (exe_entry_semantics [] [] "foo" Sample.optFoo (Forall_nil_2 _))
    as (_ & _ & Hbare).
  pose proof (exe_entry_semantics [] [] "foo" Sample.kthread (Forall_nil_2 _))
    as (Hempty & _).
  cbn [app] in *. split; [|split; [|split]].
  - by apply (Hfull eq_refl "/usr/bin/foo" [] eq_refl eq_refl).
  - intros H. by apply (Hother eq_refl "/opt/foo" ["-v"] eq_refl eq_refl) in H.
  - by apply (Hbare eq_refl "/opt/foo" ["-v"]).
  - by apply Hempty.
Defined.

(** C3 as it was stated fails for a list in which two entries share a base
    name: in [exe: ["foo", "/usr/bin/foo"]] the bare entry [foo] is
    configured, yet [/opt/foo], whose base name is [foo], does not match,
    the index holding the later full path under that base name. *)
Lemma exe_bare_entry_shadowed :
  ¬ (∀ (exe : list string) (e : string) (nacl : NameAndCmdline) arg0 rest,
       e ∈ exe → Strings.ContainsSlash e = false →
       Cmdline nacl = arg0 :: rest → Strings.Base arg0 = e →
       (Match {| exes := exeMap exe |} nacl).1 = true).
Proof.
  intros Hclaim.
  specialize (Hclaim ["foo"; "/usr/bin/foo"] "foo" Sample.optFoo "/opt/foo" ["-v"]).
  assert ((Match {| exes := exeMap ["foo"; "/usr/bin/foo"] |} Sample.optFoo).1 = false)
    as Hcode by (by vm_compute).
  rewrite Hcode in Hclaim. discriminate Hclaim; [set_solver|done..].
Qed.

(** ** The conjunction matcher *)

Lemma mergeInto_union (matches allMatches : gmap string string) :
  mergeInto matches allMatches = matches ∪ allMatches.
Proof.
  unfold mergeInto.
  apply (map_fold_weak_ind (λ r m, r = m ∪ allMatches)).
  - by rewrite (left_id_L ∅ (∪)).
  - intros k v m r _ ->. apply insert_union_l.
Qed.

Lemma andMatcher_loop_iff (ms : list dynMatcher) nacl all :
  (andMatcher_loop ms nacl all).1 = true ↔ Forall (accepts nacl) ms.
Proof.
  revert all. induction ms as [|m ms IH]; intros all; cbn.
  - split; [constructor|done].
  - rewrite Forall_cons. unfold accepts at 1.
    destruct (m nacl) as [[|] cm]; cbn; [rewrite IH; naive_solver|].
    split; [done|]. by intros [? _].
Qed.

Lemma andMatcher_loop_fail (ms : list dynMatcher) nacl all :
  (andMatcher_loop ms nacl all).1 = false → andMatcher_loop ms nacl all = (false, None).
Proof.
  revert all. induction ms as [|m ms IH]; intros all; cbn; [done|].
  destruct (m nacl) as [[|] cm]; cbn; [apply IH|done].
Qed.

Lemma andMatcher_loop_merge (ms : list dynMatcher) nacl all :
  Forall (accepts nacl) ms →
  andMatcher_loop ms nacl all = (true, Some (mergedCaptures nacl ms all)).
Proof.
  intros Hall. revert all. induction Hall as [|m ms Hm _ IH]; intros all; cbn; [done|].
  unfold accepts in Hm. unfold capturesOf.
  destruct (m nacl) as [ok cm]. cbn in Hm. subst ok. cbn.
  rewrite IH. destruct cm as [cm|]; cbn.
  - by rewrite mergeInto_union.
  - by rewrite (left_id_L ∅ (∪)).
Qed.

Lemma mergedCaptures_keep (ms : list dynMatcher) nacl all k :
  Forall (λ m, capturesOf nacl m !! k = None) ms →
  mergedCaptures nacl ms all !! k = all !! k.
Proof.
  intros Hms. revert all. induction Hms as [|m ms Hm _ IH]; intros all; cbn; [done|].
  unfold mergedCaptures in IH. rewrite IH. by apply lookup_union_r.
Qed.

Lemma mergedCaptures_last (pre post : list dynMatcher) m nacl all k v :
  capturesOf nacl m !! k = Some v →
  Forall (λ m', capturesOf nacl m' !! k = None) post →
  mergedCaptures nacl (pre ++ m :: post) all !! k = Some v.
Proof.
  intros Hm Hpost. unfold mergedCaptures. rewrite foldl_app. cbn.
  fold (mergedCaptures nacl pre all).
  fold (mergedCaptures nacl post (capturesOf nacl m ∪ mergedCaptures nacl pre all)).
  rewrite mergedCaptures_keep by done. by apply lookup_union_Some_l.
Qed.

(** C5. A conjunction matches exactly when every one of its matchers
    does, and fails with the nil map otherwise; so a rule made of a comm
    matcher and a cmdline matcher rejects a process that satisfies only
    one of them. On success the CaptureSet is the merge of the matchers'
    CaptureSets, a key holding the value of the last matcher that has it. *)
Theorem and_conjunction (ms : andMatcher) (nacl : NameAndCmdline) :
  ((Match ms nacl).1 = true ↔ Forall (accepts nacl) ms)
  ∧ ((Match ms nacl).1 = false → Match ms nacl = (false, None))
  ∧ (Forall (accepts nacl) ms →
     Match ms nacl = (true, Some (mergedCaptures nacl ms ∅))
     ∧ ∀ pre m post k v,
         ms = pre ++ m :: post →
         capturesOf nacl m !! k = Some v →
         Forall (λ m', capturesOf nacl m' !! k = None) post →
         mergedCaptures nacl ms ∅ !! k = Some v)
  ∧ (∀ (c : commMatcher) (r : cmdlineMatcher),
       ms = [Match c; Match r] →
       (Match c nacl).1 = false ∨ (Match r nacl).1 = false →
       Match ms nacl = (false, None)).
Proof.
  unfold Match at 1 2 3 4, andMatcher_Match.
  split; [apply andMatcher_loop_iff|].
  split; [apply andMatcher_loop_fail|].
  split.
  - intros Hall. split; [by apply andMatcher_loop_merge|].
    intros pre m post k v -> Hm Hpost. by apply mergedCaptures_last.
  - intros c r -> Hone. unfold Match at 1, andMatcher_Match.
    apply andMatcher_loop_fail.
    destruct (andMatcher_loop _ nacl ∅).1 eqn:Hloop; [|done].
    apply andMatcher_loop_iff in Hloop.
    inversion_clear Hloop as [|?? Hc Hrest]. inversion_clear Hrest as [|?? Hr _].
    unfold accepts in Hc, Hr. destruct Hone as [H|H]; congruence.
Qed.

(** A rule of [comm: ["worker"]] and the two worker patterns: the process
    [ingest] satisfies both and its captures are those of the cmdline
    matcher; a process named [other] with the same cmdline satisfies the
    cmdline matcher alone and is rejected. *)
Lemma and_conjunction_witness :
  (∃ all, Match ([Match {| comms := commSet ["worker"] |}; Match Sample.workerMatcher]
                  : andMatcher) Sample.ingest = (true, Some all)
          ∧ all !! "role" = Some "ingest")
  ∧ Match ([Match {| comms := commSet ["worker"] |}; Match Sample.workerMatcher]
            : andMatcher)
          {| Name := "other"; Cmdline := Cmdline Sample.ingest |} = (false, None).
Proof.
  split.
  - destruct (and_conjunction
                [Match {| comms := commSet ["worker"] |}; Match Sample.workerMatcher]
                Sample.ingest) as (_ & _ & Hmerge & _).
    destruct Hmerge as [Heq Hlast]; [repeat constructor; by vm_compute|].
    eexists. split; [apply Heq|].
    apply (Hlast [Match {| comms := commSet ["worker"] |}] (Match Sample.workerMatcher) []);
      [done|by vm_compute|constructor].
  - destruct (and_conjunction
                [Match {| comms := commSet ["worker"] |}; Match Sample.workerMatcher]
                {| Name := "other"; Cmdline := Cmdline Sample.ingest |}) as (_ & _ & _ & Hone).
    apply (Hone {| comms := commSet ["worker"] |} Sample.workerMatcher eq_refl).
    left. by vm_compute.
Defined.

(** ** The default name template *)

Lemma append_empty_r (s : string) : s +:+ "" = s.
Proof.
  induction s as [|c s IH]; [done|].
  change (String c (s +:+ "") = String c s). by f_equal.
Qed.

(** An entry with no [name] key leaves the name template as it was. *)
Lemma readEntry_no_name nm smap nametmpl smap' nametmpl' :
  Forall (λ kv : yaml * yaml, kv.1 ≠ YString "name") nm →
  readEntry nm smap nametmpl = Ok (smap', nametmpl') →
  nametmpl' = nametmpl.
Proof.
  intros Hnm. revert smap. induction Hnm as [|[k v] nm Hk _ IH]; intros smap; cbn.
  - by intros [= _ <-].
  - destruct k as [key| | | | |]; try done.
    destruct (String.eqb key "name") eqn:Hkey.
    + apply String.eqb_eq in Hkey. by subst key.
    + destruct v as [| | | |vals|]; try done.
      destruct (stringsOf key 0 vals) as [strs|]; [|done]. cbn. apply IH.
Qed.

(** What the default template prints. *)
Lemma Execute_default (p : templateParams) :
  Template.Execute [Template.Field ["ExeBase"]] (templateParams_field p) = ExeBase p.
Proof. cbn. apply append_empty_r. Qed.

Lemma getMatchNamer_default_template Compile nm mn :
  Forall (λ kv : yaml * yaml, kv.1 ≠ YString "name") nm →
  getMatchNamer Compile (YMap nm) = Ok mn →
  template (namer mn) = [Template.Field ["ExeBase"]].
Proof.
  intros Hnm. unfold getMatchNamer.
  destruct (readEntry nm ∅ "") as [[smap nametmpl]|] eqn:Hread; [|done].
  apply readEntry_no_name in Hread as ->; [|done]. cbn.
  destruct (match smap !! "cmdline" with Some _ => _ | None => _ end) as [ms|]; [|done].
  cbn. destruct (length ms =? 0)%nat; [done|].
  by intros [= <-].
Qed.

(** C6. A rule configured without a name template is given the template
    [{{.ExeBase}}], and the name it produces on a match is the base name of
    the first cmdline token when the cmdline is not empty and the
    process's command name when it is: the cmdline
    [["/opt/app/bin/server"; "-x"]] yields [server]. *)
Theorem default_name_is_ExeBase (Compile : string → option Regexp)
    (nm : list (yaml * yaml)) (mn : matchNamer) :
  Forall (λ kv : yaml * yaml, kv.1 ≠ YString "name") nm →
  getMatchNamer Compile (YMap nm) = Ok mn →
  (∀ nacl n, MatchAndName mn nacl = (true, n) →
     n = match Cmdline nacl with
         | [] => Name nacl
         | arg0 :: _ => Strings.Base arg0
         end)
  ∧ (∀ comm n,
       MatchAndName mn {| Name := comm; Cmdline := ["/opt/app/bin/server"; "-x"] |} = (true, n) →
       n = "server").
Proof.
  intros Hnm Hmn.
  pose proof (getMatchNamer_default_template _ _ _ Hnm Hmn) as Htmpl.
  assert (∀ nacl n, MatchAndName mn nacl = (true, n) →
            n = match Cmdline nacl with
                | [] => Name nacl
                | arg0 :: _ => Strings.Base arg0
                end) as Hgen.
  { intros nacl n. unfold MatchAndName, matchNamer_MatchAndName.
    destruct (Match (matchers mn) nacl) as [[|] cm]; cbn; [|done].
    rewrite Htmpl. destruct (Cmdline nacl) as [|arg0 rest];
      rewrite Execute_default; cbn; by intros [= <-]. }
  split; [done|].
  intros comm n H. by apply Hgen in H.
Qed.

(** The rule [exe: ["server"]], read with no [name] key, names the process
    [/opt/app/bin/server -x] by its base name. *)
Lemma default_name_is_ExeBase_witness :
  ∃ mn, getMatchNamer RE.Compile (Sample.rule [("exe", Sample.strs ["server"])]) = Ok mn
        ∧ MatchAndName mn Sample.server = (true, "server").
Proof.
  destruct (getMatchNamer RE.Compile (Sample.rule [("exe", Sample.strs ["server"])]))
    as [mn|] eqn:Hmn; [|by vm_compute in Hmn].
  exists mn. split; [done|].
  destruct (MatchAndName mn Sample.server) as [ok n] eqn:Hname.
  assert (ok = true) as ->.
  { vm_compute in Hmn. injection Hmn as <-. vm_compute in Hname. by injection Hname as <- _. }
  f_equal.
  refine (proj2 (default_name_is_ExeBase RE.Compile _ mn _ Hmn) "server" n Hname).
  repeat constructor; by cbn.
Defined.

(** ** The aggregation pass: partial failures *)

Lemma int_in_range (z : Z) : - 2 ^ 63 ≤ z < 2 ^ 63 → int z = z.
Proof. intros H. unfold int. rewrite Z.mod_small; lia. Qed.

Lemma withErrors_succ k c : withErrors (S k) c = countedOnce (withErrors k c).
Proof. done. Qed.

Lemma withErrors_matchnamer k c : matchnamer (withErrors k c) = matchnamer c.
Proof. induction k as [|k IH]; [done|]. by rewrite withErrors_succ. Qed.

(** Without overflow the counter is the old one plus [k]. *)
Lemma withErrors_value (k : nat) c :
  - 2 ^ 63 ≤ errors_scrape c → errors_scrape c + Z.of_nat k < 2 ^ 63 →
  errors_scrape (withErrors k c) = errors_scrape c + Z.of_nat k.
Proof.
  induction k as [|k IH]; intros Hlo Hhi; [cbn; lia|].
  rewrite withErrors_succ. cbn. rewrite IH by lia. rewrite int_in_range; lia.
Qed.

Lemma after_after {A} j k (o : outcome A) : after j (after k o) = after (j + k) o.
Proof.
  destruct o as [a c|]; [|done]. cbn. f_equal. unfold withErrors.
  by rewrite Nat.iter_add.
Qed.

(** A process that is not readable is skipped with one error counted. *)
Lemma readProc_unreadable env bootTime groups p c :
  readable env p = false →
  readProc env bootTime groups p c = Returns groups (withErrors 1 c).
Proof.
  unfold readable, readProc.
  destruct (Proc_NewStat env p); [|done]. by destruct (Proc_CmdLine env p).
Qed.

(** The body of the loop does not look at the error counter: counting an
    error before it or after it is the same. *)
Lemma readProc_counted env bootTime groups p c :
  readProc env bootTime groups p (countedOnce c)
  = after 1 (readProc env bootTime groups p c).
Proof.
  unfold readProc.
  destruct (Proc_NewStat env p) as [stat|]; [|done].
  destruct (Proc_CmdLine env p) as [cmdline|]; [|done].
  run_simpl. destruct (matchnamer c) as [mn|]; [|done].
  destruct (mn _) as [[|] gname]; cbn; [|done].
  unfold aggregate. destruct (getProcAccount env _) as [acc [|]]; by run_simpl.
Qed.

Lemma readProcs_counted env bootTime procs groups c :
  readProcs env bootTime procs groups (countedOnce c)
  = after 1 (readProcs env bootTime procs groups c).
Proof.
  revert groups c. induction procs as [|p procs IH]; intros groups c; [done|].
  cbn. unfold mbind, Run_bind. rewrite readProc_counted.
  destruct (readProc env bootTime groups p c) as [groups' c'|]; [|done].
  cbn. apply IH.
Qed.

Lemma readProcs_skip_unreadable env bootTime procs groups c :
  readProcs env bootTime procs groups c
  = after (length (List.filter (λ p, negb (readable env p)) procs))
      (readProcs env bootTime (List.filter (readable env) procs) groups c).
Proof.
  revert groups c. induction procs as [|p procs IH]; intros groups c.
  - cbn. done.
  - cbn [List.filter]. destruct (readable env p) eqn:Hp; cbn [negb].
    + cbn. unfold mbind, Run_bind.
      destruct (readProc env bootTime groups p c) as [groups' c'|]; [|done].
      apply IH.
    + cbn [length readProcs]. unfold mbind, Run_bind.
      rewrite readProc_unreadable by done.
      change (withErrors 1 c) with (countedOnce c).
      rewrite readProcs_counted, IH, after_after. done.
Qed.

(** C7. In the loop of the pass a process whose stat read or cmdline read
    fails is skipped with exactly one scrape error counted, the groups
    untouched; and the pass over a process table is the pass over its
    readable processes alone, with one more error counted for each
    unreadable one: the other processes are classified and aggregated as
    if the unreadable ones were not there, and the pass is never cut
    short by them. Short of overflow, counting an error adds one. *)
Theorem unreadable_processes_are_skipped (env : Env) (bootTime : Z)
    (procs : list procfs.Proc) (groups : gmap groupKey procGroup) (c : procCollector) :
  (∀ p, Proc_NewStat env p = None ∨ Proc_CmdLine env p = None →
        readProc env bootTime groups p c = Returns groups (withErrors 1 c))
  ∧ readProcs env bootTime procs groups c
    = after (length (List.filter (λ p, negb (readable env p)) procs))
        (readProcs env bootTime (List.filter (readable env) procs) groups c)
  ∧ (∀ k : nat, - 2 ^ 63 ≤ errors_scrape c → errors_scrape c + Z.of_nat k < 2 ^ 63 →
                errors_scrape (withErrors k c) = errors_scrape c + Z.of_nat k).
Proof.
  split; [|split].
  - intros p Hp. apply readProc_unreadable. unfold readable.
    destruct Hp as [-> | ->]; [done|]. by destruct (Proc_NewStat env p).
  - apply readProcs_skip_unreadable.
  - intros k. apply withErrors_value.
Qed.

(** In the sample table process 2 is skipped with one error counted, and
    the pass over the four processes is the pass over the other three with
    that one error more. *)
Lemma unreadable_processes_are_skipped_witness :
  readProc (Sample.table 1700000000 false) 1700000000 ∅ (Sample.proc 2)
           (Sample.collector [Sample.ruleA])
  = Returns ∅ (withErrors 1 (Sample.collector [Sample.ruleA]))
  ∧ readProcs (Sample.table 1700000000 false) 1700000000
              [Sample.proc 1; Sample.proc 2; Sample.proc 3; Sample.proc 4] ∅
              (Sample.collector [Sample.ruleA])
    = after 1 (readProcs (Sample.table 1700000000 false) 1700000000
                         [Sample.proc 1; Sample.proc 3; Sample.proc 4] ∅
                         (Sample.collector [Sample.ruleA]))
  ∧ errors_scrape (withErrors 1 (Sample.collector [Sample.ruleA])) = 1.
Proof.
  destruct (unreadable_processes_are_skipped (Sample.table 1700000000 false) 1700000000
              [Sample.proc 1; Sample.proc 2; Sample.proc 3; Sample.proc 4] ∅
              (Sample.collector [Sample.ruleA])) as (Hskip & Hpass & Hcount).
  split; [|split].
  - apply Hskip. by left.
  - exact Hpass.
  - apply (Hcount 1%nat); cbn; lia.
Defined.

(** ** The aggregation pass: the owning account *)

(** [getProcAccount] sets its error exactly when the stat call fails or
    the uid has no account, and the account is empty then. *)
Lemma getProcAccount_error env pid :
  (getProcAccount env pid).2 = true
  ↔ os_Stat env pid = None
    ∨ ∃ uid, os_Stat env pid = Some (Some uid) ∧ user_LookupId env uid = None.
Proof.
  unfold getProcAccount.
  destruct (os_Stat env pid) as [[uid|]|]; cbn; [|naive_solver..].
  destruct (user_LookupId env uid) eqn:Hid; cbn; naive_solver.
Qed.

Lemma getProcAccount_empty env pid :
  (getProcAccount env pid).2 = true → getProcAccount env pid = ("", true).
Proof.
  unfold getProcAccount.
  destruct (os_Stat env pid) as [[uid|]|]; cbn; [|done..].
  by destruct (user_LookupId env uid).
Qed.

(** C8. A process that a rule classified and whose owner's account cannot
    be resolved (the lookup of its uid fails) still goes into the groups:
    one scrape error is counted and its metrics are folded into the group
    of the empty account and its group name, made on first sight. *)
Theorem unresolved_account_is_kept (env : Env) (bootTime : Z)
    (groups : gmap groupKey procGroup) (p : procfs.Proc) (stat : procfs.ProcStat)
    (cmdline : list string) (mn : dynMatchNamer) (gname : string) (uid : Z)
    (c : procCollector) :
  Proc_NewStat env p = Some stat →
  Proc_CmdLine env p = Some cmdline →
  matchnamer c = Some mn →
  mn {| Name := procfs.Comm stat; Cmdline := cmdline |} = (true, gname) →
  os_Stat env (procfs.PID p) = Some (Some uid) →
  user_LookupId env uid = None →
  readProc env bootTime groups p c
  = Returns
      (<[ {| key_account := ""; groupname := gname |} :=
            updateGroup
              (default (newGroup gname "")
                       (groups !! {| key_account := ""; groupname := gname |}))
              (readMetrics bootTime stat) ]> groups)
      (withErrors 1 c).
Proof.
  intros Hstat Hcmd Hmn Hname Huid Hlookup.
  assert (getProcAccount env (procfs.PID p) = ("", true)) as Hacc.
  { apply getProcAccount_empty, getProcAccount_error. right. eauto. }
  unfold readProc. rewrite Hstat, Hcmd. run_simpl. rewrite Hmn, Hname. cbn.
  unfold aggregate. by rewrite Hacc.
Qed.

(** Process 3 of the sample table, owned by uid 4242, matches [ruleA]: it
    is counted once as an error and makes the group of the empty account
    and the name [A], with one process in it. *)
Lemma unresolved_account_is_kept_witness :
  ∃ groups,
    readProc (Sample.table 1700000000 false) 1700000000 ∅ (Sample.proc 3)
             (Sample.collector [Sample.ruleA])
    = Returns groups (withErrors 1 (Sample.collector [Sample.ruleA]))
    ∧ numProcs <$> groups !! {| key_account := ""; groupname := "A" |} = Some 1.
Proof.
  eexists. split.
  - eapply (unresolved_account_is_kept (Sample.table 1700000000 false) 1700000000 ∅
              (Sample.proc 3) (Sample.stat "foo" 500) ["/usr/bin/foo"] _ "A" 4242);
      [done|done|done|by vm_compute|done|done].
  - by rewrite lookup_insert_eq.
Defined.

(** ** The aggregation pass: no rule set *)

(** With the nil rule set the loop skips unreadable processes and panics
    at the first readable one. *)
Lemma readProcs_nil_matchnamer env bootTime procs groups c :
  matchnamer c = None →
  readProcs env bootTime procs groups c
  = if existsb (readable env) procs then Panics
    else Returns groups (withErrors (length procs) c).
Proof.
  intros Hnil. revert c Hnil.
  induction procs as [|p procs IH]; intros c Hnil; [done|].
  cbn [readProcs existsb]. unfold mbind, Run_bind.
  destruct (readable env p) eqn:Hp; cbn [orb].
  - unfold readProc, readable in *.
    destruct (Proc_NewStat env p); [|done]. destruct (Proc_CmdLine env p); [|done].
    run_simpl. by rewrite Hnil.
  - rewrite readProc_unreadable by done.
    rewrite IH by by rewrite withErrors_matchnamer.
    destruct (existsb (readable env) procs); [done|].
    cbn [length]. f_equal. unfold withErrors.
    symmetry. apply (Nat.iter_succ_r (length procs) countedOnce c).
Qed.

Lemma existsb_Exists {A} (f : A → bool) (l : list A) :
  existsb f l = true ↔ Exists (λ x, f x = true) l.
Proof.
  induction l as [|x l IH]; cbn.
  - split; [done|]. by intros ?%Exists_nil.
  - by rewrite orb_true_iff, Exists_cons, IH.
Qed.

(** C10. When no config path is given, [main] hands the nil [MatchNamer]
    to the collector (and with a config path it never does). With the nil
    [MatchNamer] a pass over a process table panics, at the method call on
    the nil interface, exactly when the table holds a process whose stat
    and cmdline can be read; so no result set comes back once there is one
    readable process. *)
Theorem nil_matchnamer_panics :
  (∀ Compile Unmarshal ReadFile,
     main_matchnamer Compile Unmarshal ReadFile "" = Ok None
     ∧ ∀ configPath, configPath ≠ "" →
         main_matchnamer Compile Unmarshal ReadFile configPath ≠ Ok None)
  ∧ (∀ env procfsPath procs,
       AllProcs env = Some procs →
       (readProcGroups env (NewProcCollector procfsPath None) = Panics
        ↔ Exists (λ p, readable env p = true) procs))
  ∧ (∀ env c pre p post,
       matchnamer c = None →
       AllProcs env = Some (pre ++ p :: post) →
       readable env p = true →
       readProcGroups env c = Panics).
Proof.
  assert (∀ env c procs, matchnamer c = None → AllProcs env = Some procs →
            (readProcGroups env c = Panics ↔ Exists (λ p, readable env p = true) procs))
    as Hpass.
  { intros env c procs Hnil Hprocs. unfold readProcGroups. rewrite Hprocs.
    destruct (NewStat env) as [fstat err]. unfold mbind, Run_bind.
    rewrite <- existsb_Exists.
    assert (∃ c', (if err then countError else mret ()) c = Returns () c'
                  ∧ matchnamer c' = None) as (c' & -> & Hnil').
    { destruct err; eexists; (split; [done|]); done. }
    rewrite readProcs_nil_matchnamer by done.
    by destruct (existsb (readable env) procs). }
  split; [|split].
  - intros Compile Unmarshal ReadFile. split; [done|].
    intros configPath Hpath. unfold main_matchnamer.
    destruct (String.eqb configPath "") eqn:Heq.
    { by apply String.eqb_eq in Heq. }
    cbn. by destruct (ReadConfig _ _ _ configPath).
  - intros env procfsPath procs. by apply Hpass.
  - intros env c pre p post Hnil Hprocs Hp.
    apply (Hpass env c _ Hnil Hprocs). apply Exists_app. right. by constructor.
Qed.

(** The collector that [main] builds without a config path panics on the
    sample table, whose first process is readable. *)
Lemma nil_matchnamer_panics_witness :
  ∃ mnr, main_matchnamer RE.Compile (λ _, None) (λ _, None) "" = Ok mnr
         ∧ readProcGroups (Sample.table 1700000000 false) (NewProcCollector "/proc" mnr)
           = Panics.
Proof.
  destruct nil_matchnamer_panics as (Hmain & _ & Hpanic).
  exists None. split; [apply Hmain|].
  by apply (Hpanic (Sample.table 1700000000 false) (NewProcCollector "/proc" None)
              [] (Sample.proc 1) [Sample.proc 2; Sample.proc 3; Sample.proc 4]).
Defined.

(** ** The oldest start time *)

Section OldestStartTime.

Local Open Scope float_scope.

(** [<] on binary64 is irreflexive and transitive (also around NaN and the
    infinities), from the specification of the comparison. *)
Lemma SFltb_irrefl f : SFltb f f = false.
Proof.
  unfold SFltb. destruct f as [s|s| |s m e]; cbn; try done; try (by destruct s).
  destruct s; rewrite Z.compare_refl, Pos.compare_cont_refl; done.
Qed.

Lemma SFltb_trans a b c : SFltb a b = true → SFltb b c = true → SFltb a c = true.
Proof.
  unfold SFltb.
  destruct a as [sa|sa| |sa ma ea], b as [sb|sb| |sb mb eb], c as [sc|sc| |sc mc ec]; cbn;
    try done; try (by destruct sa, sb, sc).
  destruct sa, sb, sc; try done;
    destruct (Z.compare_spec ea eb), (Z.compare_spec eb ec), (Z.compare_spec ea ec);
    try done; try lia; subst;
    fold (Pos.compare ma mb); fold (Pos.compare mb mc); fold (Pos.compare ma mc);
    destruct (Pos.compare_spec ma mb), (Pos.compare_spec mb mc), (Pos.compare_spec ma mc);
    cbn; try done; try lia.
Qed.

Lemma ltb_irrefl (x : float) : (x <? x) = false.
Proof. rewrite ltb_spec. apply SFltb_irrefl. Qed.

Lemma ltb_trans (x y z : float) : (x <? y) = true → (y <? z) = true → (x <? z) = true.
Proof. rewrite !ltb_spec. apply SFltb_trans. Qed.

(** The first process folded into a new group sets the oldest start time,
    whatever its value. *)
Lemma updateGroup_first gname account m :
  oldestStartTime (updateGroup (newGroup gname account) m) = metrics.startTime m.
Proof. done. Qed.

(** Once the stored value is not the sentinel, a start time replaces it
    only when strictly smaller. *)
Lemma updateGroup_next g m :
  (oldestStartTime g =? 0) = false →
  oldestStartTime (updateGroup g m)
  = if metrics.startTime m <? oldestStartTime g then metrics.startTime m
    else oldestStartTime g.
Proof. intros H. cbn. by rewrite H. Qed.

(** The invariant of the fold: the stored value is one of the start times
    seen, none of which is strictly smaller, and it is not the sentinel. *)
Lemma fold_oldest_invariant (g : procGroup) (ms : list metrics.t) (seen : list float) :
  (oldestStartTime g =? 0) = false →
  oldestStartTime g ∈ seen →
  Forall (λ t, (t <? oldestStartTime g) = false) seen →
  Forall (λ x, (metrics.startTime x =? 0) = false) ms →
  (oldestStartTime (foldl updateGroup g ms) =? 0) = false
  ∧ oldestStartTime (foldl updateGroup g ms) ∈ seen ++ (metrics.startTime <$> ms)
  ∧ Forall (λ t, (t <? oldestStartTime (foldl updateGroup g ms)) = false)
           (seen ++ (metrics.startTime <$> ms)).
Proof.
  intros Hnz Hin Hmin Hms. revert g seen Hnz Hin Hmin.
  induction Hms as [|m ms Hm _ IH]; intros g seen Hnz Hin Hmin.
  - cbn. by rewrite app_nil_r.
  - cbn [foldl fmap list_fmap].
    replace (seen ++ metrics.startTime m :: (metrics.startTime <$> ms))
      with ((seen ++ [metrics.startTime m]) ++ (metrics.startTime <$> ms))
      by by rewrite <- app_assoc.
    apply IH; rewrite updateGroup_next by done;
      destruct (metrics.startTime m <? oldestStartTime g) eqn:Hlt.
    + done.
    + done.
    + set_solver.
    + set_solver.
    + apply Forall_app. split; [|by repeat constructor; apply ltb_irrefl].
      eapply Forall_impl; [exact Hmin|]. cbn. intros t Ht.
      destruct (t <? metrics.startTime m) eqn:Htm; [|done].
      by rewrite (ltb_trans _ _ _ Htm Hlt) in Ht.
    + apply Forall_app. split; [done|]. by repeat constructor.
Qed.

(** C9, as the code has it. The first start time folded into a new group
    replaces the sentinel 0 whatever its magnitude, and a later start time
    replaces a stored value other than 0 only when strictly smaller. So,
    as long as no process folded into the group has the start time 0
    itself, after each process the oldest start time is the minimum of the
    start times folded in so far (one of them, none of the others being
    smaller) and it is not the sentinel. *)
Theorem oldest_start_time_is_minimum (gname account : string)
    (m : metrics.t) (ms : list metrics.t) :
  Forall (λ x, (metrics.startTime x =? 0) = false) (m :: ms) →
  let g := foldl updateGroup (newGroup gname account) (m :: ms) in
  (oldestStartTime g =? 0) = false
  ∧ oldestStartTime g ∈ metrics.startTime <$> (m :: ms)
  ∧ Forall (λ x, (metrics.startTime x <? oldestStartTime g) = false) (m :: ms)
  ∧ oldestStartTime (updateGroup (newGroup gname account) m) = metrics.startTime m
  ∧ ∀ g' x, (oldestStartTime g' =? 0) = false →
      oldestStartTime (updateGroup g' x)
      = if metrics.startTime x <? oldestStartTime g' then metrics.startTime x
        else oldestStartTime g'.
Proof.
  intros Hall g. inversion_clear Hall as [|?? Hm Hms].
  destruct (fold_oldest_invariant (updateGroup (newGroup gname account) m) ms
              [metrics.startTime m]) as (Hnz & Hin & Hmin).
  - by rewrite updateGroup_first.
  - rewrite updateGroup_first. set_solver.
  - rewrite updateGroup_first. repeat constructor. apply ltb_irrefl.
  - done.
  - subst g. cbn [foldl]. split; [done|]. split; [done|].
    split; [|split; [done|apply updateGroup_next]].
    change ([metrics.startTime m] ++ (metrics.startTime <$> ms))
      with (metrics.startTime <$> (m :: ms)) in Hmin.
    by apply Forall_fmap in Hmin.
Qed.

End OldestStartTime.

(** Two processes of a system booted at 1700000000, started at ticks 500
    and 0, folded in that order: the oldest start time is the second's. *)
Lemma oldest_start_time_is_minimum_witness :
  oldestStartTime
    (foldl updateGroup (newGroup "A" "alice")
       [readMetrics 1700000000 (Sample.stat "foo" 500);
        readMetrics 1700000000 (Sample.stat "foo" 0)])
  ∈ [1700000005%float; 1700000000%float]
  ∧ Forall (λ x, (metrics.startTime x
                  <? oldestStartTime
                       (foldl updateGroup (newGroup "A" "alice")
                          [readMetrics 1700000000 (Sample.stat "foo" 500);
                           readMetrics 1700000000 (Sample.stat "foo" 0)]))%float = false)
      [readMetrics 1700000000 (Sample.stat "foo" 500);
       readMetrics 1700000000 (Sample.stat "foo" 0)].
Proof.
  destruct (oldest_start_time_is_minimum "A" "alice"
              (readMetrics 1700000000 (Sample.stat "foo" 500))
              [readMetrics 1700000000 (Sample.stat "foo" 0)])
    as (_ & Hin & Hmin & _).
  - repeat constructor; by vm_compute.
  - split; [|exact Hmin]. exact Hin.
Defined.

(** C9 as it was stated fails when a process has the start time 0 (the
    boot time read as 0 and the process started at tick 0): folded in
    alone, the oldest start time is the sentinel; followed by a process
    started at tick 500, the oldest start time becomes 5 although a
    process that started at 0 is in the group. *)
Lemma oldest_start_time_sentinel_clash :
  ¬ (∀ (gname account : string) (m : metrics.t) (ms : list metrics.t),
       (oldestStartTime (foldl updateGroup (newGroup gname account) (m :: ms)) =? 0)%float
       = false)
  ∧ ¬ (∀ (gname account : string) (m : metrics.t) (ms : list metrics.t),
         Forall (λ x, (metrics.startTime x
                       <? oldestStartTime
                            (foldl updateGroup (newGroup gname account) (m :: ms)))%float
                      = false) (m :: ms)).
Proof.
  split.
  - intros Hclaim.
    specialize (Hclaim "A" "alice" (readMetrics 0 (Sample.stat "foo" 0)) []).
    by vm_compute in Hclaim.
  - intros Hclaim.
    specialize (Hclaim "A" "alice" (readMetrics 0 (Sample.stat "foo" 0))
                  [readMetrics 0 (Sample.stat "foo" 500)]).
    inversion_clear Hclaim as [|?? Hfirst _]. by vm_compute in Hfirst.
Qed.


(** The same on a whole pass: the boot time cannot be read (and is taken
    as 0); processes 1 and 4 of the sample table are alice's and match
    [ruleA]; process 1 started at tick 0, yet the oldest start time of the
    group is that of process 4. Three errors are counted: the boot time,
    process 2 and the account of process 3. *)
Example pass_with_unread_boot_time :
  Sample.summary {| key_account := "alice"; groupname := "A" |}
    (readProcGroups (Sample.table 0 true) (Sample.collector [Sample.ruleA]))
  = Some (3, Some 2, Some 5%float).
Proof. by vm_compute. Qed.

(** With the boot time read, the group's oldest start time is that of
    process 1. *)
Example pass_with_boot_time :
  Sample.summary {| key_account := "alice"; groupname := "A" |}
    (readProcGroups (Sample.table 1700000000 false) (Sample.collector [Sample.ruleA]))
  = Some (2, Some 2, Some 1700000000%float).
Proof. by vm_compute. Qed.

(** ** The groups of a pass *)

Lemma foldedFrom_weaken env bootTime procs procs' groups :
  procs ⊆ procs' →
  foldedFrom env bootTime procs groups → foldedFrom env bootTime procs' groups.
Proof.
  intros Hsub Hinv k g Hg. destruct (Hinv k g Hg) as (m & ms & -> & Hall).
  exists m, ms. split; [done|].
  eapply Forall_impl; [exact Hall|]. cbn. intros x (p & stat & Hp & Hstat & ->).
  exists p, stat. split; [by apply Hsub|done].
Qed.

Lemma readProc_foldedFrom env bootTime procs groups p c groups' c' :
  p ∈ procs →
  foldedFrom env bootTime procs groups →
  readProc env bootTime groups p c = Returns groups' c' →
  foldedFrom env bootTime procs groups'.
Proof.
  intros Hp Hinv. unfold readProc.
  destruct (Proc_NewStat env p) as [stat|] eqn:Hstat; [|by intros [= <- _]].
  destruct (Proc_CmdLine env p) as [cmdline|]; [|by intros [= <- _]].
  run_simpl. destruct (matchnamer c) as [mn|]; [|done].
  destruct (mn _) as [[|] gname]; cbn; [|by intros [= <- _]].
  unfold aggregate. destruct (getProcAccount env _) as [acc err].
  set (gkey := {| key_account := acc; groupname := gname |}).
  assert (∃ m ms,
            updateGroup (default (newGroup gname acc) (groups !! gkey))
                        (readMetrics bootTime stat)
            = foldl updateGroup (newGroup gname acc) (m :: ms)
            ∧ Forall (λ x, ∃ p stat, p ∈ procs ∧ Proc_NewStat env p = Some stat
                                     ∧ x = readMetrics bootTime stat) (m :: ms))
    as Hnew.
  { destruct (groups !! gkey) as [g0|] eqn:Hg0.
    - destruct (Hinv gkey g0 Hg0) as (m & ms & -> & Hall).
      exists m, (ms ++ [readMetrics bootTime stat]). split.
      + change (m :: ms ++ [readMetrics bootTime stat])
          with ((m :: ms) ++ [readMetrics bootTime stat]).
        by rewrite foldl_app.
      + change (m :: ms ++ [readMetrics bootTime stat])
          with ((m :: ms) ++ [readMetrics bootTime stat]).
        apply Forall_app. split; [done|]. repeat constructor. eauto.
    - exists (readMetrics bootTime stat), []. split; [done|].
      repeat constructor. eauto. }
  intros Hret.
  assert (groups' = <[gkey := updateGroup (default (newGroup gname acc) (groups !! gkey))
                                (readMetrics bootTime stat)]> groups) as ->.
  { destruct err; run_simpl; by injection Hret as <- _. }
  intros k g. rewrite lookup_insert. case_decide as Hk.
  - subst k. intros [= <-]. exact Hnew.
  - apply Hinv.
Qed.

Lemma readProcs_foldedFrom env bootTime procs all groups c groups' c' :
  procs ⊆ all →
  foldedFrom env bootTime all groups →
  readProcs env bootTime procs groups c = Returns groups' c' →
  foldedFrom env bootTime all groups'.
Proof.
  revert groups c. induction procs as [|p procs IH]; intros groups c Hsub Hinv; cbn.
  - by intros [= <- _].
  - unfold mbind, Run_bind.
    destruct (readProc env bootTime groups p c) as [groups1 c1|] eqn:Hp; [|done].
    apply IH; [set_solver|].
    eapply readProc_foldedFrom; [|done..]. set_solver.
Qed.

(** Every group that a pass returns is a new group of its key updated
    with the metrics of one or more processes of the table; so, when no
    process of the table has the start time 0, its oldest start time is
    the minimum of the start times folded into it and not the sentinel. *)
Lemma pass_oldest_start_time env c procs fstat err groups c' :
  AllProcs env = Some procs →
  NewStat env = (fstat, err) →
  readProcGroups env c = Returns (Some groups, false) c' →
  (∀ p stat, p ∈ procs → Proc_NewStat env p = Some stat →
     (metrics.startTime (readMetrics (uint64 (procfs.BootTime fstat)) stat) =? 0)%float
     = false) →
  ∀ k g, groups !! k = Some g →
    ∃ m ms,
      g = foldl updateGroup (newGroup (groupname k) (key_account k)) (m :: ms)
      ∧ (oldestStartTime g =? 0)%float = false
      ∧ oldestStartTime g ∈ metrics.startTime <$> (m :: ms)
      ∧ Forall (λ x, (metrics.startTime x <? oldestStartTime g)%float = false) (m :: ms).
Proof.
  intros Hprocs Hboot Hpass Hnz k g Hg.
  unfold readProcGroups in Hpass. rewrite Hprocs, Hboot in Hpass.
  unfold mbind, Run_bind in Hpass.
  destruct ((if err then countError else mret ()) c) as [[] c1|]; [|done].
  destruct (readProcs env _ procs ∅ c1) as [groups1 c2|] eqn:Hloop; [|done].
  cbn in Hpass. injection Hpass as <- _.
  eapply readProcs_foldedFrom in Hloop; [|done|by intros ?? ?%lookup_empty_Some].
  destruct (Hloop k g Hg) as (m & ms & -> & Hall).
  exists m, ms. split; [done|].
  pose proof (fold_oldest_invariant (updateGroup (newGroup (groupname k) (key_account k)) m)
                ms [metrics.startTime m]) as Hfold.
  inversion Hall as [|?? (p0 & s0 & Hp0 & Hs0 & Hm0) Hms]; subst.
  destruct Hfold as (H1 & H2 & H3).
  - rewrite updateGroup_first. eauto.
  - rewrite updateGroup_first. set_solver.
  - rewrite updateGroup_first. repeat constructor. apply ltb_irrefl.
  - eapply Forall_impl; [exact Hms|]. cbn. intros x (p & stat & Hp & Hstat & ->). eauto.
  - cbn [foldl]. split; [done|]. split; [exact H2|].
    change ([metrics.startTime (readMetrics (uint64 (procfs.BootTime fstat)) s0)]
            ++ (metrics.startTime <$> ms))
      with (metrics.startTime <$> (readMetrics (uint64 (procfs.BootTime fstat)) s0 :: ms))
      in H3.
    by apply Forall_fmap in H3.
Qed.

(** * Further properties of the package *)

(** ** The comm matcher *)

Lemma commSet_elem (comm : list string) (x : string) : x ∈ commSet comm ↔ x ∈ comm.
Proof.
  unfold commSet.
  assert (∀ acc : gset string, x ∈ foldl (λ comms c, {[c]} ∪ comms) acc comm
                               ↔ x ∈ comm ∨ x ∈ acc) as H.
  { induction comm as [|c comm IH]; intros acc; cbn; [set_solver|].
    rewrite IH. set_solver. }
  rewrite H. set_solver.
Qed.

(** X1. The comm matcher that the reader builds from a list of names
    matches exactly the processes whose command name is an element of the
    list, whatever their cmdline, and never returns captures. *)
Theorem comm_matcher_by_name (comm : list string) (nacl : NameAndCmdline) :
  Match {| comms := commSet comm |} nacl = (bool_decide (Name nacl ∈ comm), None).
Proof.
  unfold Match, commMatcher_Match. cbn. f_equal.
  apply bool_decide_ext, commSet_elem.
Qed.

(** ** The executable matcher, in full *)

Lemma lastWithKey_snoc k exe e :
  lastWithKey k (exe ++ [e])
  = if bool_decide (exeKey e = k) then Some e else lastWithKey k exe.
Proof.
  unfold lastWithKey. rewrite List.filter_app. cbn.
  destruct (bool_decide (exeKey e = k)).
  - apply last_snoc.
  - by rewrite app_nil_r.
Qed.

Lemma exeMap_lookup (exe : list string) (k : string) :
  exeMap exe !! k = exePath <$> lastWithKey k exe.
Proof.
  induction exe as [|e exe IH] using rev_ind; [done|].
  rewrite exeMap_snoc, lastWithKey_snoc, lookup_insert.
  case_decide as Hk.
  - by rewrite bool_decide_eq_true_2.
  - by rewrite bool_decide_eq_false_2.
Qed.

Lemma exePath_empty (e : string) : exePath e = "" ↔ Strings.ContainsSlash e = false.
Proof.
  unfold exePath. destruct (Strings.ContainsSlash e) eqn:He; [|done].
  split; [|done]. intros ->. by cbn in He.
Qed.

(** X2. Whatever the [exe] list, the executable matcher decides by the
    last entry of the list that is indexed under the base name of the
    first cmdline token: with no such entry, or an empty cmdline, it fails;
    when that entry is a bare name it succeeds; when it is a full path it
    succeeds exactly when the token is that path. Earlier entries with the
    same base name play no part. It never returns captures. *)
Theorem exe_matcher_last_entry (exe : list string) (nacl : NameAndCmdline) :
  Match {| exes := exeMap exe |} nacl
  = match Cmdline nacl with
    | [] => (false, None)
    | arg0 :: _ =>
        match lastWithKey (Strings.Base arg0) exe with
        | None => (false, None)
        | Some e => (negb (Strings.ContainsSlash e) || bool_decide (e = arg0), None)
        end
    end.
Proof.
  unfold Match, exeMatcher_Match. cbn.
  destruct (Cmdline nacl) as [|arg0 rest]; [done|].
  rewrite exeMap_lookup.
  destruct (lastWithKey (Strings.Base arg0) exe) as [e|]; cbn; [|done].
  destruct (String.eqb (exePath e) "") eqn:Hp.
  - apply String.eqb_eq, exePath_empty in Hp. by rewrite Hp.
  - assert (Strings.ContainsSlash e = true) as He.
    { destruct (Strings.ContainsSlash e) eqn:He; [done|].
      apply exePath_empty in He. rewrite He in Hp. done. }
    unfold exePath. rewrite He. cbn. f_equal.
    destruct (String.eqb e arg0) eqn:Heq.
    + apply String.eqb_eq in Heq. by rewrite bool_decide_eq_true_2.
    + apply String.eqb_neq in Heq. by rewrite bool_decide_eq_false_2.
Qed.

(** ** Rule sets put together *)

(** X3. A rule set followed by another answers as the first when the
    first matches and as the second otherwise; and since a rule set is
    itself a [MatchNamer], a rule set placed as one rule inside another
    behaves as its rules spliced in at that place. *)
Theorem FirstMatcher_app (f g : FirstMatcher) (nacl : NameAndCmdline) :
  MatchAndName (f ++ g) nacl
  = (if (MatchAndName f nacl).1 then MatchAndName f nacl else MatchAndName g nacl)
  ∧ ∀ post : FirstMatcher,
      MatchAndName (f ++ MatchAndName g :: post) nacl = MatchAndName (f ++ g ++ post) nacl.
Proof.
  unfold MatchAndName, FirstMatcher_MatchNamer.
  assert (∀ f' h : FirstMatcher,
            FirstMatcher_MatchAndName (f' ++ h) nacl
            = if (FirstMatcher_MatchAndName f' nacl).1 then FirstMatcher_MatchAndName f' nacl
              else FirstMatcher_MatchAndName h nacl) as Happ.
  { intros f' h. induction f' as [|m f' IH]; cbn.
    - by destruct h.
    - destruct (m nacl) as [[|] n]; cbn; [done|apply IH]. }
  split; [apply Happ|].
  intros post. rewrite !Happ.
  destruct (FirstMatcher_MatchAndName f nacl).1; [done|]. cbn.
  destruct (FirstMatcher_MatchAndName g nacl) as [[|] n] eqn:Hg; cbn; [done|].
  done.
Qed.

(** ** What the reader makes of an entry *)

Lemma hasKey_cons k v nm key :
  hasKey ((YString k, v) :: nm) key = String.eqb k key || hasKey nm key.
Proof. done. Qed.

(** The string lists that [readEntry] leaves are those it was given and
    those of the keys of the entry, [name] apart. *)
Lemma readEntry_keys nm smap nametmpl smap' nametmpl' key :
  readEntry nm smap nametmpl = Ok (smap', nametmpl') →
  key ≠ "name" →
  is_Some (smap' !! key) ↔ hasKey nm key = true ∨ is_Some (smap !! key).
Proof.
  revert smap nametmpl.
  induction nm as [|[k v] nm IH]; intros smap nametmpl; cbn [readEntry].
  - intros [= <- <-] _. cbn. naive_solver.
  - destruct k as [k| | | | |]; try done.
    destruct (String.eqb k "name") eqn:Hname.
    + destruct v as [value| | | | |]; try done.
      intros H Hkey. rewrite (IH _ _ H Hkey), hasKey_cons.
      apply String.eqb_eq in Hname. subst k.
      destruct (String.eqb "name" key) eqn:Heq; [|done].
      apply String.eqb_eq in Heq. by subst key.
    + destruct v as [| | | |vals|]; try done.
      destruct (stringsOf k 0 vals) as [strs|]; [|done]. cbn -[hasKey].
      intros H Hkey. rewrite (IH _ _ H Hkey), hasKey_cons, lookup_insert.
      destruct (String.eqb k key) eqn:Heq.
      * apply String.eqb_eq in Heq. subst k. rewrite decide_True by done.
        split; [by left|]. intros _. right. by eexists.
      * apply String.eqb_neq in Heq. by rewrite decide_False.
Qed.

Lemma b2n_is_Some {A} (o : option A) (b : bool) :
  (is_Some o ↔ b = true) →
  Nat.b2n b = match o with Some _ => 1%nat | None => 0%nat end.
Proof.
  intros [H1 H2]. destruct o as [a|], b; cbn; try done.
  - discriminate H1. by eexists.
  - by destruct (H2 eq_refl).
Qed.

(** X4. A rule that the reader accepts has one matcher for each of the
    keys [comm], [exe] and [cmdline] that its entry has, and at least one
    of them: an entry with none of the three keys is refused, whatever
    else it holds. *)
Theorem getMatchNamer_matchers (Compile : string → option Regexp)
    (nm : list (yaml * yaml)) :
  (∀ mn, getMatchNamer Compile (YMap nm) = Ok mn →
     length (matchers mn)
     = (Nat.b2n (hasKey nm "comm") + Nat.b2n (hasKey nm "exe")
        + Nat.b2n (hasKey nm "cmdline"))%nat
     ∧ (1 ≤ length (matchers mn))%nat)
  ∧ (hasKey nm "comm" = false → hasKey nm "exe" = false → hasKey nm "cmdline" = false →
     ∀ mn, getMatchNamer Compile (YMap nm) ≠ Ok mn).
Proof.
  assert (∀ mn, getMatchNamer Compile (YMap nm) = Ok mn →
     length (matchers mn)
     = (Nat.b2n (hasKey nm "comm") + Nat.b2n (hasKey nm "exe")
        + Nat.b2n (hasKey nm "cmdline"))%nat
     ∧ (1 ≤ length (matchers mn))%nat) as Hlen.
  { intros mn. unfold getMatchNamer.
    destruct (readEntry nm ∅ "") as [[smap nametmpl]|] eqn:Hread; [|done]. cbn.
    assert (∀ key, key ≠ "name" → is_Some (smap !! key) ↔ hasKey nm key = true) as Hkeys.
    { intros key Hkey. rewrite (readEntry_keys _ _ _ _ _ key Hread Hkey).
      rewrite lookup_empty. split; [intros [?|[? ?]]; done|by left]. }
    rewrite (b2n_is_Some _ _ (Hkeys "comm" ltac:(done))),
      (b2n_is_Some _ _ (Hkeys "exe" ltac:(done))),
      (b2n_is_Some _ _ (Hkeys "cmdline" ltac:(done))).
    destruct (smap !! "comm") as [comm|], (smap !! "exe") as [exe|],
      (smap !! "cmdline") as [cmdline|]; cbn;
      try destruct (compileAll Compile cmdline) as [rs|]; cbn; try done;
      destruct (Template.Parse _); try done; intros [= <-]; cbn; lia. }
  split; [exact Hlen|].
  intros H1 H2 H3 mn Hmn. destruct (Hlen mn Hmn) as [Heq Hpos].
  rewrite H1, H2, H3 in Heq. cbn in Heq. lia.
Qed.

(** The rule [ruleA] has the key [exe] alone and one matcher; an entry with
    a name and nothing else is refused. *)
Lemma getMatchNamer_matchers_witness :
  (∃ mn, getMatchNamer RE.Compile Sample.ruleA = Ok mn ∧ length (matchers mn) = 1%nat)
  ∧ ∀ mn, getMatchNamer RE.Compile (Sample.rule [("name", YString "x")]) ≠ Ok mn.
Proof.
  split.
  - destruct (getMatchNamer RE.Compile Sample.ruleA) as [mn|] eqn:Hmn;
      [|by vm_compute in Hmn].
    exists mn. split; [done|].
    by destruct (proj1 (getMatchNamer_matchers RE.Compile _) mn Hmn) as [-> _].
  - by apply (proj2 (getMatchNamer_matchers RE.Compile [(YString "name", YString "x")])).
Defined.

(** Two runs of [readEntry] over the same entries, from string lists that
    agree except under [k], end alike: with the same error, or with the
    same name template and string lists that agree except under [k]. *)
Lemma readEntry_agree (k : string) nm (s1 s2 : gmap string (list string)) nametmpl :
  (∀ j, j ≠ k → s1 !! j = s2 !! j) →
  match readEntry nm s1 nametmpl, readEntry nm s2 nametmpl with
  | Ok (a, t1), Ok (b, t2) => (∀ j, j ≠ k → a !! j = b !! j) ∧ t1 = t2
  | Err e1, Err e2 => e1 = e2
  | _, _ => False
  end.
Proof.
  revert s1 s2 nametmpl. induction nm as [|[key v] nm IH]; intros s1 s2 nametmpl H; cbn.
  - done.
  - destruct key as [key| | | | |]; try done.
    destruct (String.eqb key "name").
    + destruct v; try done. by apply IH.
    + destruct v as [| | | |vals|]; try done.
      destruct (stringsOf key 0 vals) as [strs|]; [|done]. cbn.
      apply IH. intros j Hj. rewrite !lookup_insert.
      case_decide; [done|by apply H].
Qed.

Lemma readEntry_skip (k : string) vals strs pre post (s : gmap string (list string)) nametmpl :
  String.eqb k "name" = false →
  stringsOf k 0 vals = Ok strs →
  match readEntry (pre ++ (YString k, YList vals) :: post) s nametmpl,
        readEntry (pre ++ post) s nametmpl with
  | Ok (a, t1), Ok (b, t2) => (∀ j, j ≠ k → a !! j = b !! j) ∧ t1 = t2
  | Err e1, Err e2 => e1 = e2
  | _, _ => False
  end.
Proof.
  intros Hname Hstrs. revert s nametmpl.
  induction pre as [|[key v] pre IH]; intros s nametmpl.
  - cbn [app readEntry]. rewrite Hname, Hstrs. cbn.
    apply readEntry_agree. intros j Hj. by rewrite lookup_insert_ne.
  - cbn [app readEntry].
    destruct key as [key| | | | |]; try done.
    destruct (String.eqb key "name").
    + destruct v; try done. apply IH.
    + destruct v as [| | | |vals'|]; try done.
      destruct (stringsOf key 0 vals') as [strs'|]; [|done]. cbn. apply IH.
Qed.

(** X5. A key other than [name], [comm], [exe] and [cmdline] whose value
    is a list of strings is read and then ignored: the reader gives the
    same result, rule or error, for the entry with it and without it. (A
    misspelt matcher key is thus dropped without a word.) *)
Theorem getMatchNamer_ignores_other_keys (Compile : string → option Regexp)
    (k : string) (vals : list yaml) (strs : list string) (pre post : list (yaml * yaml)) :
  k ∉ ["name"; "comm"; "exe"; "cmdline"] →
  stringsOf k 0 vals = Ok strs →
  getMatchNamer Compile (YMap (pre ++ (YString k, YList vals) :: post))
  = getMatchNamer Compile (YMap (pre ++ post)).
Proof.
  intros Hk Hstrs.
  assert (String.eqb k "name" = false) as Hname.
  { apply String.eqb_neq. set_solver. }
  pose proof (readEntry_skip k vals strs pre post ∅ "" Hname Hstrs) as Hskip.
  unfold getMatchNamer.
  destruct (readEntry (pre ++ _ :: post) ∅ "") as [[a t1]|e1],
           (readEntry (pre ++ post) ∅ "") as [[b t2]|e2]; try done; [|by subst].
  destruct Hskip as [Hagree <-]. cbn.
  rewrite (Hagree "comm"), (Hagree "exe"), (Hagree "cmdline") by set_solver.
  done.
Qed.

(** The entry [cmdlin: ["^worker"]; exe: ["foo"]], with a misspelt key,
    is read as [exe: ["foo"]]. *)
Lemma getMatchNamer_ignores_other_keys_witness :
  getMatchNamer RE.Compile
    (Sample.rule [("cmdlin", Sample.strs ["^worker"]); ("exe", Sample.strs ["foo"])])
  = getMatchNamer RE.Compile (Sample.rule [("exe", Sample.strs ["foo"])]).
Proof.
  apply (getMatchNamer_ignores_other_keys RE.Compile "cmdlin" [YString "^worker"]
           ["^worker"] [] [(YString "exe", Sample.strs ["foo"])]).
  - set_solver.
  - done.
Defined.

(** ** The rule set of a configuration *)

Lemma readProcnames_ok Compile (i : nat) procnames (acc f : FirstMatcher) :
  readProcnames Compile i procnames acc = Ok f →
  ∃ rs, f = acc ++ rs
        ∧ Forall2 (λ e r, ∃ mn, getMatchNamer Compile e = Ok mn ∧ r = MatchAndName mn)
                  procnames rs.
Proof.
  revert i acc. induction procnames as [|e procnames IH]; intros i acc; cbn.
  - intros [= <-]. exists []. by rewrite app_nil_r.
  - destruct (getMatchNamer Compile e) as [mn|] eqn:He; [|done].
    intros (rs & -> & Hrs)%IH. exists (MatchAndName mn :: rs).
    rewrite <- app_assoc. split; [done|]. constructor; eauto.
Qed.

Lemma readProcnames_err Compile (i : nat) pre e post (acc : FirstMatcher) err :
  Forall (λ e', ∃ mn, getMatchNamer Compile e' = Ok mn) pre →
  getMatchNamer Compile e = Err err →
  readProcnames Compile i (pre ++ e :: post) acc = Err (ErrEntry (i + length pre) err).
Proof.
  intros Hpre He. revert i acc.
  induction Hpre as [|e' pre [mn Hmn] _ IH]; intros i acc; cbn.
  - rewrite He. by rewrite Nat.add_0_r.
  - rewrite Hmn, IH. do 2 f_equal. lia.
Qed.

(** X6. A configuration that [GetConfig] accepts has a list under
    [process_names], and its rule set holds the rules of the entries of
    that list, one for one and in the order of the list. When an entry is
    refused and those before it are not, [GetConfig] fails with the
    position of that entry (counted from 0) and the entry's error. *)
Theorem GetConfig_rules (Compile : string → option Regexp)
    (Unmarshal : string → option (gmap string yaml)) (content : string) :
  (∀ cfg, GetConfig Compile Unmarshal content = Ok cfg →
     ∃ yamldata procnames,
       Unmarshal content = Some yamldata
       ∧ yamldata !! "process_names" = Some (YList procnames)
       ∧ Forall2 (λ e r, ∃ mn, getMatchNamer Compile e = Ok mn ∧ r = MatchAndName mn)
                 procnames (MatchNamers cfg))
  ∧ (∀ yamldata pre e post err,
       Unmarshal content = Some yamldata →
       yamldata !! "process_names" = Some (YList (pre ++ e :: post)) →
       Forall (λ e', ∃ mn, getMatchNamer Compile e' = Ok mn) pre →
       getMatchNamer Compile e = Err err →
       GetConfig Compile Unmarshal content = Err (ErrEntry (length pre) err)).
Proof.
  unfold GetConfig. split.
  - intros cfg. destruct (Unmarshal content) as [yamldata|]; [|done].
    destruct (yamldata !! "process_names") as [[| | | |procnames|]|] eqn:Hpn; try done.
    destruct (readProcnames Compile 0 procnames []) as [f|] eqn:Hf; [|done].
    cbn. intros [= <-]. exists yamldata, procnames. split; [done|]. split; [done|].
    by apply readProcnames_ok in Hf as (rs & -> & Hrs).
  - intros yamldata pre e post err -> -> Hpre He.
    by rewrite (readProcnames_err _ 0 pre e post [] err Hpre He).
Qed.

(** A document of two entries, [ruleA] and an empty map: the second entry
    is refused for having no matcher, and the error names position 1. *)
Lemma GetConfig_rules_witness :
  GetConfig RE.Compile
    (λ _, Some {[ "process_names" := YList [Sample.ruleA; YMap []] ]}) ""
  = Err (ErrEntry 1 ErrNoMatchers).
Proof.
  apply (proj2 (GetConfig_rules RE.Compile _ "") _ [Sample.ruleA] (YMap []) []
           ErrNoMatchers eq_refl).
  - by rewrite lookup_singleton_eq.
  - constructor; [|constructor].
    destruct (getMatchNamer RE.Compile Sample.ruleA) as [mn|] eqn:Hmn;
      [by eexists|by vm_compute in Hmn].
  - done.
Defined.

(** ** What a pass returns *)

(** X7. A pass that returns reports an error, and returns the nil map,
    exactly when the process table could not be listed; the failures of
    single processes, of the boot time and of the account lookup are
    counted but never reported. When the table cannot be listed the pass
    always returns, with one scrape error counted. *)
Theorem readProcGroups_error (env : Env) (c : procCollector) :
  (∀ groups err c',
     readProcGroups env c = Returns (groups, err) c' →
     (err = true ↔ AllProcs env = None) ∧ (groups = None ↔ AllProcs env = None))
  ∧ (AllProcs env = None → readProcGroups env c = Returns (None, true) (withErrors 1 c)).
Proof.
  unfold readProcGroups. split.
  - intros groups err c'. destruct (AllProcs env) as [procs|].
    + destruct (NewStat env) as [fstat berr]. unfold mbind, Run_bind.
      destruct ((if berr then countError else mret ()) c) as [[] c1|]; [|done].
      destruct (readProcs env _ procs ∅ c1) as [groups1 c2|]; [|done].
      cbn. intros [= <- <- _]. naive_solver.
    + run_simpl. intros [= <- <- _]. naive_solver.
  - by intros ->.
Qed.

(** The sample table with no process list: the nil map and an error. *)
Lemma readProcGroups_error_witness :
  readProcGroups
    {| AllProcs := None; NewStat := NewStat (Sample.table 0 false);
       Proc_NewStat := Proc_NewStat (Sample.table 0 false);
       Proc_CmdLine := Proc_CmdLine (Sample.table 0 false);
       os_Stat := os_Stat (Sample.table 0 false);
       user_LookupId := user_LookupId (Sample.table 0 false) |}
    (Sample.collector [Sample.ruleA])
  = Returns (None, true) (withErrors 1 (Sample.collector [Sample.ruleA])).
Proof. by apply (proj2 (readProcGroups_error _ _)). Defined.

(** X8. A boot time that cannot be read costs one scrape error and
    nothing else: the pass goes on with the value that came with the
    error, and its outcome is that of the pass with the same value read
    without error, one error more counted. *)
Theorem boot_time_failure_is_counted (procs : option (list procfs.Proc))
    (fstat : procfs.Stat) (pstat : procfs.Proc → option procfs.ProcStat)
    (cmdline : procfs.Proc → option (list string))
    (ostat : Z → option (option Z)) (lookup : Z → option string) (c : procCollector) :
  procs ≠ None →
  readProcGroups
    {| AllProcs := procs; NewStat := (fstat, true); Proc_NewStat := pstat;
       Proc_CmdLine := cmdline; os_Stat := ostat; user_LookupId := lookup |} c
  = after 1
      (readProcGroups
         {| AllProcs := procs; NewStat := (fstat, false); Proc_NewStat := pstat;
            Proc_CmdLine := cmdline; os_Stat := ostat; user_LookupId := lookup |} c).
Proof.
  intros Hprocs. unfold readProcGroups. cbn.
  destruct procs as [ps|]; [|done]. unfold mbind, Run_bind. cbn.
  change (countError c) with (Returns () (countedOnce c)). cbn.
  set (env1 := {| AllProcs := Some ps; NewStat := (fstat, true) |}).
  set (env2 := {| AllProcs := Some ps; NewStat := (fstat, false) |}).
  assert (∀ l g c0, readProcs env1 (uint64 (procfs.BootTime fstat)) l g c0
                    = readProcs env2 (uint64 (procfs.BootTime fstat)) l g c0) as Hsame.
  { induction l as [|p l IH]; intros g c0; [done|].
    cbn. unfold mbind, Run_bind.
    change (readProc env1 (uint64 (procfs.BootTime fstat)) g p c0)
      with (readProc env2 (uint64 (procfs.BootTime fstat)) g p c0).
    destruct (readProc env2 _ g p c0); [apply IH|done]. }
  rewrite Hsame.
  change {| procfsPath := procfsPath c; matchnamer := matchnamer c;
            errors_scrape := int (errors_scrape c + 1) |} with (countedOnce c).
  rewrite readProcs_counted.
  by destruct (readProcs env2 _ ps ∅ c).
Qed.

(** The sample table with the boot time unread against the same table
    with the boot time 0 read. *)
Lemma boot_time_failure_is_counted_witness :
  readProcGroups (Sample.table 0 true) (Sample.collector [Sample.ruleA])
  = after 1 (readProcGroups (Sample.table 0 false) (Sample.collector [Sample.ruleA])).
Proof.
  by apply (boot_time_failure_is_counted
              (Some [Sample.proc 1; Sample.proc 2; Sample.proc 3; Sample.proc 4])).
Defined.

(** ** The totals of a group *)

Lemma uint64_add_l (a b : Z) : uint64 (uint64 a + b) = uint64 (a + b).
Proof. unfold uint64. apply Zplus_mod_idemp_l. Qed.

Lemma total_Permutation f ms ms' : ms ≡ₚ ms' → total f ms = total f ms'.
Proof.
  unfold total.
  induction 1 as [|m ms ms' _ IH|m1 m2 ms|ms1 ms2 ms3 _ IH1 _ IH2]; cbn; lia.
Qed.

(** The integer fields after a fold, from any group. *)
Lemma foldl_updateGroup_totals (g : procGroup) (ms : list metrics.t) :
  name (foldl updateGroup g ms) = name g
  ∧ account (foldl updateGroup g ms) = account g
  ∧ uint64 (numProcs (foldl updateGroup g ms)) = uint64 (numProcs g + Z.of_nat (length ms))
  ∧ uint64 (memVirt (foldl updateGroup g ms)) = uint64 (memVirt g + total metrics.memVirt ms)
  ∧ uint64 (memRss (foldl updateGroup g ms)) = uint64 (memRss g + total metrics.memRss ms)
  ∧ uint64 (numThreads (foldl updateGroup g ms))
    = uint64 (numThreads g + total metrics.numThreads ms).
Proof.
  unfold total. revert g. induction ms as [|m ms IH]; intros g.
  - cbn. by rewrite !Z.add_0_r.
  - cbn [foldl]. destruct (IH (updateGroup g m)) as (-> & -> & -> & -> & -> & ->).
    cbn [name account numProcs memVirt memRss numThreads updateGroup foldr length].
    rewrite !uint64_add_l. repeat split; f_equal; lia.
Qed.

Lemma uint64_idemp (z : Z) : uint64 (uint64 z) = uint64 z.
Proof. unfold uint64. apply Z.mod_mod. lia. Qed.

Lemma updateGroup_canonical g m :
  uint64 (numProcs (updateGroup g m)) = numProcs (updateGroup g m)
  ∧ uint64 (memVirt (updateGroup g m)) = memVirt (updateGroup g m)
  ∧ uint64 (memRss (updateGroup g m)) = memRss (updateGroup g m)
  ∧ uint64 (numThreads (updateGroup g m)) = numThreads (updateGroup g m).
Proof. cbn. by rewrite !uint64_idemp. Qed.

(** The integer fields after a fold, from a new group. *)
Lemma foldl_newGroup_totals (gname acc : string) (l : list metrics.t) :
  name (foldl updateGroup (newGroup gname acc) l) = gname
  ∧ account (foldl updateGroup (newGroup gname acc) l) = acc
  ∧ numProcs (foldl updateGroup (newGroup gname acc) l) = uint64 (Z.of_nat (length l))
  ∧ memVirt (foldl updateGroup (newGroup gname acc) l) = uint64 (total metrics.memVirt l)
  ∧ memRss (foldl updateGroup (newGroup gname acc) l) = uint64 (total metrics.memRss l)
  ∧ numThreads (foldl updateGroup (newGroup gname acc) l)
    = uint64 (total metrics.numThreads l).
Proof.
  destruct (foldl_updateGroup_totals (newGroup gname acc) l)
    as (Hn & Ha & Hp & Hv & Hr & Ht).
  cbn [newGroup name account numProcs memVirt memRss numThreads] in *.
  rewrite !Z.add_0_l in *.
  split; [done|]. split; [done|].
  destruct l as [|m l] using rev_ind; [done|].
  rewrite foldl_app in *. cbn [foldl] in *.
  destruct (updateGroup_canonical (foldl updateGroup (newGroup gname acc) l) m)
    as (Cp & Cv & Cr & Ct).
  by rewrite <- Cp, <- Cv, <- Cr, <- Ct.
Qed.

(** X9. A group made by [newGroup] and updated with the metrics of some
    processes keeps its name and account, counts the processes and holds
    the sums of their virtual memory, resident memory and thread counts,
    all modulo 2^64. These fields therefore do not depend on the order in
    which the processes were folded in. *)
Theorem group_totals (gname acc : string) (ms : list metrics.t) :
  name (foldl updateGroup (newGroup gname acc) ms) = gname
  ∧ account (foldl updateGroup (newGroup gname acc) ms) = acc
  ∧ numProcs (foldl updateGroup (newGroup gname acc) ms) = uint64 (Z.of_nat (length ms))
  ∧ memVirt (foldl updateGroup (newGroup gname acc) ms) = uint64 (total metrics.memVirt ms)
  ∧ memRss (foldl updateGroup (newGroup gname acc) ms) = uint64 (total metrics.memRss ms)
  ∧ numThreads (foldl updateGroup (newGroup gname acc) ms)
    = uint64 (total metrics.numThreads ms)
  ∧ ∀ ms', ms ≡ₚ ms' →
      numProcs (foldl updateGroup (newGroup gname acc) ms')
      = numProcs (foldl updateGroup (newGroup gname acc) ms)
      ∧ memVirt (foldl updateGroup (newGroup gname acc) ms')
        = memVirt (foldl updateGroup (newGroup gname acc) ms)
      ∧ memRss (foldl updateGroup (newGroup gname acc) ms')
        = memRss (foldl updateGroup (newGroup gname acc) ms)
      ∧ numThreads (foldl updateGroup (newGroup gname acc) ms')
        = numThreads (foldl updateGroup (newGroup gname acc) ms).
Proof.
  destruct (foldl_newGroup_totals gname acc ms) as (Hn & Ha & Hp & Hv & Hr & Ht).
  repeat (split; [done|]).
  intros ms' Hperm.
  destruct (foldl_newGroup_totals gname acc ms') as (_ & _ & Hp' & Hv' & Hr' & Ht').
  rewrite Hp, Hv, Hr, Ht, Hp', Hv', Hr', Ht'.
  rewrite <- !(total_Permutation _ _ _ Hperm), (Permutation_length Hperm). done.
Qed.

(** Two processes folded in either order give the same integer totals. *)
Lemma group_totals_witness :
  numProcs (foldl updateGroup (newGroup "A" "alice")
              [readMetrics 0 (Sample.stat "foo" 500); readMetrics 0 (Sample.stat "foo" 0)])
  = numProcs (foldl updateGroup (newGroup "A" "alice")
                [readMetrics 0 (Sample.stat "foo" 0); readMetrics 0 (Sample.stat "foo" 500)]).
Proof.
  refine (proj1 (proj2 (proj2 (proj2 (proj2 (proj2 (proj2
            (group_totals "A" "alice"
               [readMetrics 0 (Sample.stat "foo" 0); readMetrics 0 (Sample.stat "foo" 500)]))))))
            _ _)).
  apply Permutation_swap.
Defined.

(** ** The groups of a pass and their keys *)

Lemma readProcGroups_foldedFrom env c procs fstat err groups e c' :
  AllProcs env = Some procs →
  NewStat env = (fstat, err) →
  readProcGroups env c = Returns (Some groups, e) c' →
  foldedFrom env (uint64 (procfs.BootTime fstat)) procs groups.
Proof.
  intros Hprocs Hboot Hpass.
  unfold readProcGroups in Hpass. rewrite Hprocs, Hboot in Hpass.
  unfold mbind, Run_bind in Hpass.
  destruct ((if err then countError else mret ()) c) as [[] c1|]; [|done].
  destruct (readProcs env _ procs ∅ c1) as [groups1 c2|] eqn:Hloop; [|done].
  cbn in Hpass. injection Hpass as <- _ _.
  eapply readProcs_foldedFrom; [| |exact Hloop]; [done|].
  by intros ?? ?%lookup_empty_Some.
Qed.

Lemma foldedFrom_keys env bootTime procs groups k g :
  foldedFrom env bootTime procs groups →
  groups !! k = Some g →
  name g = groupname k ∧ account g = key_account k.
Proof.
  intros Hinv Hg. destruct (Hinv k g Hg) as (m & ms & -> & _).
  by destruct (foldl_newGroup_totals (groupname k) (key_account k) (m :: ms))
    as (Hn & Ha & _).
Qed.



(** ** The account of a classified process *)

(** The step of the loop for a process that is read and classified. *)
Lemma readProc_classified env bootTime groups p stat cmdline mn gname c :
  Proc_NewStat env p = Some stat →
  Proc_CmdLine env p = Some cmdline →
  matchnamer c = Some mn →
  mn {| Name := procfs.Comm stat; Cmdline := cmdline |} = (true, gname) →
  readProc env bootTime groups p c
  = Returns
      (<[ {| key_account := (getProcAccount env (procfs.PID p)).1; groupname := gname |} :=
            updateGroup
              (default (newGroup gname (getProcAccount env (procfs.PID p)).1)
                 (groups !! {| key_account := (getProcAccount env (procfs.PID p)).1;
                               groupname := gname |}))
              (readMetrics bootTime stat) ]> groups)
      (if (getProcAccount env (procfs.PID p)).2 then withErrors 1 c else c).
Proof.
  intros Hstat Hcmd Hmn Hname.
  unfold readProc. rewrite Hstat, Hcmd. run_simpl. rewrite Hmn, Hname. cbn.
  unfold aggregate. by destruct (getProcAccount env _) as [acc [|]].
Qed.

(** X11. A classified process goes into the group of its owner's account
    name when the stat call and the lookup of the uid both succeed, with no
    error counted; into the group of the empty account with one error
    counted when the stat call fails; and into the group of the empty
    account with no error counted when the file information carries no
    uid ([getProcAccount] returns the nil error of the stat call there). *)
Theorem account_of_classified_process (env : Env) (bootTime : Z)
    (groups : gmap groupKey procGroup) (p : procfs.Proc) (stat : procfs.ProcStat)
    (cmdline : list string) (mn : dynMatchNamer) (gname : string) (c : procCollector) :
  Proc_NewStat env p = Some stat →
  Proc_CmdLine env p = Some cmdline →
  matchnamer c = Some mn →
  mn {| Name := procfs.Comm stat; Cmdline := cmdline |} = (true, gname) →
  (∀ uid username,
     os_Stat env (procfs.PID p) = Some (Some uid) →
     user_LookupId env uid = Some username →
     readProc env bootTime groups p c
     = Returns
         (<[ {| key_account := username; groupname := gname |} :=
               updateGroup
                 (default (newGroup gname username)
                    (groups !! {| key_account := username; groupname := gname |}))
                 (readMetrics bootTime stat) ]> groups) c)
  ∧ (os_Stat env (procfs.PID p) = None →
     readProc env bootTime groups p c
     = Returns
         (<[ {| key_account := ""; groupname := gname |} :=
               updateGroup
                 (default (newGroup gname "")
                    (groups !! {| key_account := ""; groupname := gname |}))
                 (readMetrics bootTime stat) ]> groups) (withErrors 1 c))
  ∧ (os_Stat env (procfs.PID p) = Some None →
     readProc env bootTime groups p c
     = Returns
         (<[ {| key_account := ""; groupname := gname |} :=
               updateGroup
                 (default (newGroup gname "")
                    (groups !! {| key_account := ""; groupname := gname |}))
                 (readMetrics bootTime stat) ]> groups) c).
Proof.
  intros Hstat Hcmd Hmn Hname.
  pose proof (readProc_classified env bootTime groups p stat cmdline mn gname c
                Hstat Hcmd Hmn Hname) as Hstep.
  unfold getProcAccount in Hstep. split; [|split].
  - intros uid username Hos Hid. by rewrite Hos, Hid in Hstep.
  - intros Hos. by rewrite Hos in Hstep.
  - intros Hos. by rewrite Hos in Hstep.
Qed.

(** Process 1 of the sample table is alice's: it makes the group of
    alice and [A], and no error is counted. *)
Lemma account_of_classified_process_witness :
  ∃ groups,
    readProc (Sample.table 1700000000 false) 1700000000 ∅ (Sample.proc 1)
             (Sample.collector [Sample.ruleA])
    = Returns groups (Sample.collector [Sample.ruleA])
    ∧ numProcs <$> groups !! {| key_account := "alice"; groupname := "A" |} = Some 1.
Proof.
  assert (MatchAndName (Sample.rules [Sample.ruleA])
            {| Name := procfs.Comm (Sample.stat "foo" 0); Cmdline := ["/usr/bin/foo"] |}
          = (true, "A")) as Hname by (by vm_compute).
  eexists. split.
  - apply (proj1 (account_of_classified_process (Sample.table 1700000000 false)
                    1700000000 ∅ (Sample.proc 1) (Sample.stat "foo" 0) ["/usr/bin/foo"]
                    (MatchAndName (Sample.rules [Sample.ruleA])) "A"
                    (Sample.collector [Sample.ruleA]) eq_refl eq_refl eq_refl Hname)
             1000 "alice" eq_refl eq_refl).
  - by rewrite lookup_insert_eq.
Defined.



(** ** The metrics of a scrape *)

Lemma groupSamples_well_formed (g : procGroup) :
  Forall (λ s, length (labelValues s) = length (variableLabels (desc s))
               ∧ desc s ∈ Describe) (groupSamples g).
Proof. unfold groupSamples, Describe. repeat constructor; set_solver. Qed.

Lemma length_groups_samples (l : list (groupKey * procGroup)) :
  length (concat (map (λ kg, groupSamples kg.2) l)) = (7 * length l)%nat.
Proof. induction l as [|kg l IH]; cbn in *; lia. Qed.

Lemma groups_samples_well_formed (l : list (groupKey * procGroup)) :
  Forall (λ s, length (labelValues s) = length (variableLabels (desc s))
               ∧ desc s ∈ Describe) (concat (map (λ kg, groupSamples kg.2) l)).
Proof.
  induction l as [|kg l IH]; cbn [map concat]; [constructor|].
  apply Forall_app_2; [apply groupSamples_well_formed|exact IH].
Qed.

Lemma length_scrapeSamples (procGroups : option (gmap groupKey procGroup))
    (c : procCollector) :
  length (scrapeSamples procGroups c) = (7 * from_option size 0%nat procGroups + 1)%nat.
Proof.
  unfold scrapeSamples. rewrite length_app, length_groups_samples. cbn.
  destruct procGroups as [groups|]; cbn; [|done].
  by rewrite length_map_to_list.
Qed.

(** X13. Every sample that [Collect] builds has as many label values as
    its descriptor has labels, and its descriptor is one of those that
    [Describe] sends. A scrape has seven samples for each group and one
    more, the last, for the scrape errors; from the nil map it has that
    one only. *)
Theorem scrapeSamples_well_formed (procGroups : option (gmap groupKey procGroup))
    (c : procCollector) :
  Forall (λ s, length (labelValues s) = length (variableLabels (desc s))
               ∧ desc s ∈ Describe) (scrapeSamples procGroups c)
  ∧ length (scrapeSamples procGroups c)
    = (7 * from_option size 0%nat procGroups + 1)%nat
  ∧ last (scrapeSamples procGroups c) = Some (errorsSample c).
Proof.
  split; [|split].
  - unfold scrapeSamples. apply Forall_app_2.
    + apply groups_samples_well_formed.
    + repeat constructor.
  - apply length_scrapeSamples.
  - unfold scrapeSamples. apply last_snoc.
Qed.

Section CollectFacts.

Variable Metric : Type.
Variable MustNewConstMetric : constMetric → option Metric.

(** The library accepts a sample whose label values are as many as the
    labels of its descriptor. *)
Hypothesis accepts_consistent :
  ∀ s, length (labelValues s) = length (variableLabels (desc s)) →
       is_Some (MustNewConstMetric s).

Lemma sendAll_accepted (samples : list constMetric) :
  Forall (λ s, length (labelValues s) = length (variableLabels (desc s))) samples →
  ∃ ms, sendAll Metric MustNewConstMetric samples = Some ms
        ∧ Forall2 (λ s m, MustNewConstMetric s = Some m) samples ms.
Proof.
  induction 1 as [|s samples Hs _ (ms & IH & Hms)]; cbn.
  - by exists [].
  - destruct (accepts_consistent s Hs) as [m Hm]. rewrite Hm, IH.
    exists (m :: ms). split; [done|]. by constructor.
Qed.

(** X14. With a metrics library that accepts every sample of consistent
    label count, [Collect] panics only when the pass does. When the pass
    returns, [Collect] sends the metric of each sample of the scrape, in
    order, seven for each group and then the scrape errors; when the
    process table cannot be listed it sends the scrape errors alone, the
    failure counted in them. *)
Theorem Collect_sends_every_sample (env : Env) (c : procCollector) :
  (Collect Metric MustNewConstMetric env c = Panics ↔ readProcGroups env c = Panics)
  ∧ (∀ procGroups err c',
       readProcGroups env c = Returns (procGroups, err) c' →
       ∃ ms, Collect Metric MustNewConstMetric env c = Returns ms c'
             ∧ Forall2 (λ s m, MustNewConstMetric s = Some m)
                       (scrapeSamples procGroups c') ms
             ∧ length ms = (7 * from_option size 0%nat procGroups + 1)%nat)
  ∧ (AllProcs env = None →
     ∃ m, MustNewConstMetric (errorsSample (withErrors 1 c)) = Some m
          ∧ Collect Metric MustNewConstMetric env c = Returns [m] (withErrors 1 c)).
Proof.
  assert (∀ procGroups err c',
       readProcGroups env c = Returns (procGroups, err) c' →
       ∃ ms, Collect Metric MustNewConstMetric env c = Returns ms c'
             ∧ Forall2 (λ s m, MustNewConstMetric s = Some m)
                       (scrapeSamples procGroups c') ms
             ∧ length ms = (7 * from_option size 0%nat procGroups + 1)%nat) as Hret.
  { intros procGroups err c' Hpass. unfold Collect. rewrite Hpass.
    destruct (sendAll_accepted (scrapeSamples procGroups c')) as (ms & -> & Hms).
    { unfold scrapeSamples. apply Forall_app_2.
      - eapply Forall_impl; [apply groups_samples_well_formed|]. by intros s [? _].
      - by repeat constructor. }
    exists ms. split; [done|]. split; [done|].
    by rewrite <- (Forall2_length _ _ _ Hms), length_scrapeSamples. }
  split; [|split].
  - split.
    + destruct (readProcGroups env c) as [[procGroups err] c'|] eqn:Hpass; [|done].
      destruct (Hret _ _ _ eq_refl) as (ms & Hc & _). by rewrite Hc.
    + unfold Collect. by intros ->.
  - exact Hret.
  - intros Hprocs.
    assert (readProcGroups env c = Returns (None, true) (withErrors 1 c)) as Hpass.
    { unfold readProcGroups. by rewrite Hprocs. }
    destruct (Hret _ _ _ Hpass) as (ms & Hc & Hms & _).
    unfold scrapeSamples in Hms. cbn in Hms.
    inversion Hms as [|s m ss ms' Hm Hnil]; subst. inversion Hnil; subst.
    exists m. by split.
Qed.

End CollectFacts.

(** The process table cannot be listed: the scrape is the error count, 1. *)
Lemma Collect_sends_every_sample_witness :
  Collect constMetric countChecked tableUnlisted (Sample.collector [Sample.ruleA])
  = Returns [errorsSample (withErrors 1 (Sample.collector [Sample.ruleA]))]
            (withErrors 1 (Sample.collector [Sample.ruleA]))
  ∧ value (errorsSample (withErrors 1 (Sample.collector [Sample.ruleA]))) = 1%float.
Proof.
  split; [|by vm_compute].
  destruct (Collect_sends_every_sample constMetric countChecked) with
    (env := tableUnlisted) (c := Sample.collector [Sample.ruleA]) as (_ & _ & Hnone).
  - intros s Hs. unfold countChecked. rewrite Hs, Nat.eqb_refl. by eexists.
  - destruct (Hnone eq_refl) as (m & Hm & ->). by injection Hm as <-.
Defined.

(** ** No two samples alike *)

Lemma groupSamples_ids (g : procGroup) :
  NoDup (sampleId <$> groupSamples g)
  ∧ ∀ id, id ∈ sampleId <$> groupSamples g → ∃ tl, id.2 = account g :: name g :: tl.
Proof.
  unfold groupSamples, sampleId. cbn. split.
  - repeat (apply NoDup_cons; split; [set_solver|]). apply NoDup_nil_2.
  - intros id Hid. repeat (apply elem_of_cons in Hid as [->|Hid]; [by eexists|]).
    by apply elem_of_nil in Hid.
Qed.

Lemma groups_samples_ids (l : list (groupKey * procGroup)) :
  NoDup l.*1 →
  Forall (λ kg, name kg.2 = groupname kg.1 ∧ account kg.2 = key_account kg.1) l →
  NoDup (sampleId <$> concat (map (λ kg, groupSamples kg.2) l))
  ∧ ∀ id, id ∈ sampleId <$> concat (map (λ kg, groupSamples kg.2) l) →
          ∃ k tl, k ∈ l.*1 ∧ id.2 = key_account k :: groupname k :: tl.
Proof.
  induction l as [|[k g] l IH]; intros Hkeys Hnames.
  - cbn. split; [apply NoDup_nil_2|]. by intros id ?%elem_of_nil.
  - cbn [map concat fmap list_fmap] in *. rewrite fmap_app.
    apply NoDup_cons in Hkeys as [Hk Hkeys].
    inversion_clear Hnames as [|?? [Hn Ha] Hrest]. cbn in Hn, Ha.
    destruct (IH Hkeys Hrest) as [IHnd IHin].
    destruct (groupSamples_ids g) as [Hnd Hin].
    split.
    + apply NoDup_app. split; [done|]. split; [|done].
      intros id Hid Hid'.
      destruct (Hin id Hid) as [tl Htl]. destruct (IHin id Hid') as (k' & tl' & Hk' & Htl').
      rewrite Htl, Ha, Hn in Htl'. injection Htl' as Hacc Hname _.
      destruct k as [a n], k' as [a' n']. cbn in *. by subst.
    + intros id [Hid|Hid]%elem_of_app.
      * destruct (Hin id Hid) as [tl Htl]. exists k, tl.
        split; [set_solver|]. by rewrite Htl, Ha, Hn.
      * destruct (IHin id Hid) as (k' & tl & Hk' & Htl). exists k', tl.
        split; [set_solver|done].
Qed.

(** X15. The samples of a scrape differ pairwise in the name of their
    descriptor or in their label values: the groups of a pass bear the
    account and name of their keys, so no two of them give the same
    labels, and the seven samples of a group differ in descriptor or in
    their third label. *)
Theorem scrape_samples_are_distinct (env : Env) (c c' : procCollector)
    (procGroups : option (gmap groupKey procGroup)) (err : bool) :
  readProcGroups env c = Returns (procGroups, err) c' →
  NoDup (sampleId <$> scrapeSamples procGroups c').
Proof.
  intros Hpass. unfold scrapeSamples. rewrite fmap_app. apply NoDup_app.
  assert (NoDup (sampleId <$> concat (map (λ kg : groupKey * procGroup, groupSamples kg.2)
                   match procGroups with Some groups => map_to_list groups | None => [] end))
          ∧ ∀ id, id ∈ sampleId <$> concat (map (λ kg : groupKey * procGroup,
                          groupSamples kg.2)
                     match procGroups with Some groups => map_to_list groups | None => [] end) →
                  ∃ (k : groupKey) tl, id.2 = key_account k :: groupname k :: tl)
    as [Hnd Hin].
  { destruct procGroups as [groups|].
    - destruct (groups_samples_ids (map_to_list groups)) as [Hnd Hin].
      + apply NoDup_fst_map_to_list.
      + apply Forall_forall. intros [k g] Hkg%elem_of_map_to_list. cbn.
        destruct (AllProcs env) as [procs|] eqn:Hprocs.
        * destruct (NewStat env) as [fstat berr] eqn:Hboot.
          eapply foldedFrom_keys; [|exact Hkg].
          eapply readProcGroups_foldedFrom; [exact Hprocs|exact Hboot|exact Hpass].
        * unfold readProcGroups in Hpass. rewrite Hprocs in Hpass. by run_simpl.
      + split; [done|]. intros id Hid. destruct (Hin id Hid) as (k & tl & _ & Htl). eauto.
    - cbn. split; [apply NoDup_nil_2|]. by intros id ?%elem_of_nil. }
  split; [done|]. split; [|by apply NoDup_singleton].
  intros id Hid Herr. destruct (Hin id Hid) as (k & tl & Htl).
  apply list_elem_of_singleton in Herr. subst id. done.
Qed.

(** The samples of the sample pass. *)
Lemma scrape_samples_are_distinct_witness :
  ∃ groups c',
    readProcGroups (Sample.table 1700000000 false) (Sample.collector [Sample.ruleA])
    = Returns (Some groups, false) c'
    ∧ NoDup (sampleId <$> scrapeSamples (Some groups) c').
Proof.
  pose proof pass_with_boot_time as Hsum.
  destruct (readProcGroups (Sample.table 1700000000 false)
              (Sample.collector [Sample.ruleA])) as [[[groups|] [|]] c'|] eqn:Hpass;
    try done.
  exists groups, c'. split; [done|].
  exact (scrape_samples_are_distinct _ _ _ _ _ Hpass).
Defined.

(** ** The error count of a pass *)

Lemma withErrors_add (j k : nat) c : withErrors k (withErrors j c) = withErrors (j + k) c.
Proof. unfold withErrors. by rewrite Nat.add_comm, Nat.iter_add. Qed.

Lemma readProc_errors env bootTime groups p mn c :
  matchnamer c = Some mn →
  ∃ groups', readProc env bootTime groups p c
             = Returns groups' (withErrors (errorsOf env mn p) c).
Proof.
  intros Hmn. unfold readProc, errorsOf.
  destruct (Proc_NewStat env p) as [stat|]; [|by eexists].
  destruct (Proc_CmdLine env p) as [cmdline|]; [|by eexists].
  run_simpl. rewrite Hmn. destruct (mn _) as [[|] gname]; cbn; [|by eexists].
  unfold aggregate. destruct (getProcAccount env _) as [acc [|]]; by eexists.
Qed.

Lemma readProcs_errors env bootTime procs groups mn c :
  matchnamer c = Some mn →
  ∃ groups', readProcs env bootTime procs groups c
             = Returns groups' (withErrors (errorsOfAll env mn procs) c).
Proof.
  revert groups c. induction procs as [|p procs IH]; intros groups c Hmn.
  - by eexists.
  - cbn [readProcs errorsOfAll foldr]. unfold mbind, Run_bind.
    destruct (readProc_errors env bootTime groups p mn c Hmn) as [groups1 ->].
    destruct (IH groups1 (withErrors (errorsOf env mn p) c)) as [groups2 ->].
    { by rewrite withErrors_matchnamer. }
    exists groups2. by rewrite withErrors_add.
Qed.

(** X16. A collector that has a rule set never panics in a pass: when the
    process table is listed, the pass returns groups and no error, and it
    has counted one scrape error for the boot time if that could not be
    read, one for each process that could not be read, and one for each
    classified process for which [getProcAccount] returned an error;
    processes that no rule matches cost nothing. *)
Theorem pass_error_count (env : Env) (c : procCollector) (mn : dynMatchNamer)
    (procs : list procfs.Proc) :
  matchnamer c = Some mn →
  AllProcs env = Some procs →
  ∃ groups,
    readProcGroups env c
    = Returns (Some groups, false)
        (withErrors (Nat.b2n (NewStat env).2 + errorsOfAll env mn procs) c).
Proof.
  intros Hmn Hprocs. unfold readProcGroups. rewrite Hprocs.
  destruct (NewStat env) as [fstat [|]]; unfold mbind, Run_bind; cbn [snd Nat.b2n].
  - change (countError c) with (Returns () (withErrors 1 c)). cbn match.
    destruct (readProcs_errors env (uint64 (procfs.BootTime fstat)) procs ∅ mn
                (withErrors 1 c)) as [groups ->].
    { by rewrite withErrors_matchnamer. }
    exists groups. by rewrite withErrors_add.
  - cbn. destruct (readProcs_errors env (uint64 (procfs.BootTime fstat)) procs ∅ mn c Hmn)
      as [groups ->].
    by exists groups.
Qed.

(** The sample table: the boot time unread, process 2 gone and process 3
    without an account make three errors. *)
Lemma pass_error_count_witness :
  ∃ groups,
    readProcGroups (Sample.table 0 true) (Sample.collector [Sample.ruleA])
    = Returns (Some groups, false) (withErrors 3 (Sample.collector [Sample.ruleA])).
Proof.
  destruct (pass_error_count (Sample.table 0 true) (Sample.collector [Sample.ruleA])
              (MatchAndName (Sample.rules [Sample.ruleA]))
              [Sample.proc 1; Sample.proc 2; Sample.proc 3; Sample.proc 4]
              eq_refl eq_refl) as [groups Hpass].
  exists groups. exact Hpass.
Defined.

(** X17. A pass does not look at the scrape errors counted so far: from a
    collector with [k] more errors it gives the same outcome, the same
    groups or the same panic, with [k] more errors in the end. *)
Theorem pass_ignores_error_count (env : Env) (c : procCollector) (k : nat) :
  readProcGroups env (withErrors k c) = after k (readProcGroups env c).
Proof.
  assert (∀ c0, readProcGroups env (countedOnce c0) = after 1 (readProcGroups env c0))
    as Hone.
  { intros c0. unfold readProcGroups. destruct (AllProcs env) as [procs|]; [|done].
    destruct (NewStat env) as [fstat [|]]; unfold mbind, Run_bind.
    - change (countError (countedOnce c0)) with (Returns () (countedOnce (countedOnce c0))).
      change (countError c0) with (Returns () (countedOnce c0)). cbn match.
      rewrite (readProcs_counted _ _ _ _ (countedOnce c0)).
      by destruct (readProcs env _ procs ∅ (countedOnce c0)).
    - cbn. rewrite readProcs_counted. by destruct (readProcs env _ procs ∅ c0). }
  induction k as [|k IH].
  - change (withErrors 0 c) with c. by destruct (readProcGroups env c).
  - rewrite withErrors_succ, Hone, IH, after_after. done.
Qed.

(** ** A rule set that matches nothing *)

(** The step of the loop and the loop, when the rule set rejects the
    processes that can be read. *)
Lemma readProcs_unmatched env bootTime procs groups mn c :
  matchnamer c = Some mn →
  Forall (λ p, ∀ stat cmdline,
            Proc_NewStat env p = Some stat →
            Proc_CmdLine env p = Some cmdline →
            rejects {| Name := procfs.Comm stat; Cmdline := cmdline |} mn) procs →
  readProcs env bootTime procs groups c
  = Returns groups
      (withErrors (length (List.filter (λ p, negb (readable env p)) procs)) c).
Proof.
  intros Hmn Hrej. revert c Hmn. induction Hrej as [|p procs Hp _ IH]; intros c Hmn; [done|].
  assert (readProc env bootTime groups p c
          = Returns groups (withErrors (Nat.b2n (negb (readable env p))) c)) as Hstep.
  { unfold readProc, readable.
    destruct (Proc_NewStat env p) as [stat|]; [|done].
    destruct (Proc_CmdLine env p) as [cmdline|]; [|done].
    specialize (Hp stat cmdline eq_refl eq_refl). unfold rejects in Hp.
    run_simpl. rewrite Hmn. by destruct (mn _) as [[|] gname]. }
  cbn [readProcs List.filter]. unfold mbind, Run_bind. rewrite Hstep.
  rewrite IH by (by rewrite withErrors_matchnamer).
  rewrite withErrors_add. by destruct (readable env p).
Qed.

(** A pass over a table that can be listed is the loop over its
    processes, from the empty map and after the boot time is read. *)
Lemma readProcGroups_readProcs env c procs groups c' :
  AllProcs env = Some procs →
  readProcs env (uint64 (procfs.BootTime (NewStat env).1)) procs ∅
            (withErrors (Nat.b2n (NewStat env).2) c)
  = Returns groups c' →
  readProcGroups env c = Returns (Some groups, false) c'.
Proof.
  intros Hprocs. unfold readProcGroups. rewrite Hprocs.
  destruct (NewStat env) as [fstat [|]]; unfold mbind, Run_bind; cbn [fst snd Nat.b2n].
  - change (countError c) with (Returns () (withErrors 1 c)). cbn match. by intros ->.
  - cbn. by intros ->.
Qed.

(** X18. When the rule set matches none of the processes that can be
    read, a pass returns the empty map (not the nil map) and no error; the
    processes that cannot be read, and the boot time if it cannot, are
    counted as scrape errors all the same. *)
Theorem pass_without_matches (env : Env) (c : procCollector) (mn : dynMatchNamer)
    (procs : list procfs.Proc) :
  matchnamer c = Some mn →
  AllProcs env = Some procs →
  Forall (λ p, ∀ stat cmdline,
            Proc_NewStat env p = Some stat →
            Proc_CmdLine env p = Some cmdline →
            rejects {| Name := procfs.Comm stat; Cmdline := cmdline |} mn) procs →
  readProcGroups env c
  = Returns (Some ∅, false)
      (withErrors (Nat.b2n (NewStat env).2
                   + length (List.filter (λ p, negb (readable env p)) procs)) c).
Proof.
  intros Hmn Hprocs Hrej. apply (readProcGroups_readProcs _ _ procs); [done|].
  rewrite (readProcs_unmatched _ _ _ _ mn) by (by rewrite ?withErrors_matchnamer).
  by rewrite withErrors_add.
Qed.

(** The sample table under the rule [comm: ["bar"]]: no group, and one
    error for process 2. *)
Lemma pass_without_matches_witness :
  readProcGroups (Sample.table 0 false) (Sample.collector [Sample.ruleBar])
  = Returns (Some ∅, false) (withErrors 1 (Sample.collector [Sample.ruleBar])).
Proof.
  apply (pass_without_matches (Sample.table 0 false) (Sample.collector [Sample.ruleBar])
           (MatchAndName (Sample.rules [Sample.ruleBar]))
           [Sample.proc 1; Sample.proc 2; Sample.proc 3; Sample.proc 4] eq_refl eq_refl).
  repeat (constructor; [intros stat cmdline Hstat Hcmd; vm_compute in Hstat, Hcmd;
                        try discriminate Hstat;
                        injection Hstat as <-; injection Hcmd as <-;
                        vm_compute; reflexivity|]).
  constructor.
Defined.

(** X19. A configuration whose [process_names] list is empty is not the
    same as no configuration: [main] hands the collector an empty rule set,
    not the nil interface, so a pass never panics; it classifies no
    process and returns the empty map whatever the table holds. *)
Theorem empty_process_names (Compile : string → option Regexp)
    (Unmarshal : string → option (gmap string yaml)) (ReadFile : string → option string)
    (configPath content : string) (yamldata : gmap string yaml) :
  configPath ≠ "" →
  ReadFile configPath = Some content →
  Unmarshal content = Some yamldata →
  yamldata !! "process_names" = Some (YList []) →
  ∃ mn,
    main_matchnamer Compile Unmarshal ReadFile configPath = Ok (Some mn)
    ∧ (∀ nacl, mn nacl = (false, ""))
    ∧ ∀ env procs procfsPath,
        AllProcs env = Some procs →
        readProcGroups env (NewProcCollector procfsPath (Some mn))
        = Returns (Some ∅, false)
            (withErrors (Nat.b2n (NewStat env).2
                         + length (List.filter (λ p, negb (readable env p)) procs))
               (NewProcCollector procfsPath (Some mn))).
Proof.
  intros Hpath Hfile Hyaml Hnames. exists (MatchAndName ([] : FirstMatcher)).
  split; [|split].
  - unfold main_matchnamer, ReadConfig, GetConfig.
    apply String.eqb_neq in Hpath. rewrite Hpath, Hfile, Hyaml, Hnames. done.
  - done.
  - intros env procs procfsPath Hprocs.
    apply (readProcGroups_readProcs _ _ procs); [done|].
    rewrite (readProcs_unmatched _ _ _ _ (MatchAndName ([] : FirstMatcher))).
    + by rewrite withErrors_add.
    + by rewrite withErrors_matchnamer.
    + apply Forall_forall. by intros.
Qed.

(** A file that holds an empty list, and the sample table: no group, one
    error for process 2. *)
Lemma empty_process_names_witness :
  ∃ mn,
    main_matchnamer RE.Compile (λ _, Some {[ "process_names" := YList [] ]})
      (λ _, Some "process_names: []") "proc.yml" = Ok (Some mn)
    ∧ readProcGroups (Sample.table 0 false) (NewProcCollector "/proc" (Some mn))
      = Returns (Some ∅, false) (withErrors 1 (NewProcCollector "/proc" (Some mn))).
Proof.
  destruct (empty_process_names RE.Compile (λ _, Some {[ "process_names" := YList [] ]})
              (λ _, Some "process_names: []") "proc.yml" "process_names: []"
              {[ "process_names" := YList [] ]})
    as (mn & Hmain & _ & Hpass); [done|done|done|by rewrite lookup_singleton_eq|].
  exists mn. split; [exact Hmain|].
  exact (Hpass (Sample.table 0 false) _ "/proc" eq_refl).
Defined.

(** ** A rule with two keys *)

Lemma stringsOf_strings (key : string) (i : nat) (l : list string) :
  stringsOf key i (YString <$> l) = Ok l.
Proof.
  revert i. induction l as [|s l IH]; intros i; [done|].
  cbn. by rewrite IH.
Qed.

(** X20. The rule read from an entry with the keys [exe] and [comm] checks
    the command name first and the executable second, whichever order the
    keys come in, and matches the processes that both matchers match; it
    names them by the base name of their first cmdline token. *)
Theorem comm_and_exe_rule (Compile : string → option Regexp) (comm exe : list string) :
  ∃ mn,
    getMatchNamer Compile
      (YMap [(YString "exe", YList (YString <$> exe));
             (YString "comm", YList (YString <$> comm))]) = Ok mn
    ∧ getMatchNamer Compile
        (YMap [(YString "comm", YList (YString <$> comm));
               (YString "exe", YList (YString <$> exe))]) = Ok mn
    ∧ matchers mn = [Match {| comms := commSet comm |}; Match {| exes := exeMap exe |}]
    ∧ ∀ nacl,
        MatchAndName mn nacl
        = if (Match {| comms := commSet comm |} nacl).1
             && (Match {| exes := exeMap exe |} nacl).1
          then (true, default "" (Strings.Base <$> head (Cmdline nacl)))
          else (false, "").
Proof.
  exists {| matchers := [Match {| comms := commSet comm |}; Match {| exes := exeMap exe |}];
            namer := {| template := [Template.Field ["ExeBase"]] |} |}.
  split; [|split; [|split]].
  - cbn. rewrite !stringsOf_strings. cbn.
    repeat (rewrite lookup_insert_eq || (rewrite lookup_insert_ne by done)
            || rewrite lookup_empty).
    reflexivity.
  - cbn. rewrite !stringsOf_strings. cbn.
    repeat (rewrite lookup_insert_eq || (rewrite lookup_insert_ne by done)
            || rewrite lookup_empty).
    reflexivity.
  - reflexivity.
  - intros nacl. unfold MatchAndName, matchNamer_MatchAndName.
    cbn [matchers namer template].
    unfold Match at 1, andMatcher_Match. cbn [andMatcher_loop].
    destruct (Match {| comms := commSet comm |} nacl) as [[|] m1] eqn:H1; cbn; [|done].
    assert (m1 = None) as -> by (by injection H1).
    unfold Match, exeMatcher_Match. cbn [exes].
    destruct (Cmdline nacl) as [|arg0 rest]; cbn; [done|].
    destruct (exeMap exe !! Strings.Base arg0) as [fqpath|]; cbn; [|done].
    destruct (String.eqb fqpath ""); cbn.
    + by rewrite append_empty_r.
    + destruct (String.eqb fqpath arg0); cbn; [|done]. by rewrite append_empty_r.
Qed.
